(** * The smoother cost function of the SMAC planner

    A shallow embedding of
    [smac_planner/include/smac_planner/smoother_cost_function.hpp]:
    the class [UnconstrainedSmootherCostFunction], its five cost terms, their
    Jacobians, the costmap gradient helper and the sweep of [Evaluate].

    The C++ code computes on [double].  The embedding is written once over an
    interface of the operations the code uses ([Double], [Libm]) and is read
    at binary64 ([float], the kernel's IEEE 754 doubles), on which the model
    runs and on which rounding, NaN, infinities and bit-for-bit equality have
    their meaning.  Everything that follows from the control flow alone is
    proved for every instance of the interface; what depends on the
    arithmetic is proved on binary64. *)

From Stdlib Require Import ZArith Floats Uint63 Lia.
From stdpp Require Import base list.

Set Warnings "-inexact-float".
Set Default Proof Using "Type".

(** ** Arithmetic on [double] *)

(** The operations of the language and of IEEE 754 that the code uses:
    integer literals converted to [double], the four operations, the
    comparisons, [std::sqrt] (behind Eigen's [norm]), [fabs], [std::isnan]
    and [std::isinf]. *)
Class Double (D : Type) := {
  of_Z : Z -> D;
  dadd : D -> D -> D;
  dsub : D -> D -> D;
  dmul : D -> D -> D;
  ddiv : D -> D -> D;
  dltb : D -> D -> bool;
  dleb : D -> D -> bool;
  deqb : D -> D -> bool;
  dsqrt : D -> D;
  dfabs : D -> D;
  disnan : D -> bool;
  disinf : D -> bool
}.

(** The functions of the C math library that the code calls. *)
Class Libm (D : Type) := {
  acos : D -> D;
  cos : D -> D;
  pow : D -> D -> D;
  hypot : D -> D -> D
}.

Declare Scope dbl_scope.
Delimit Scope dbl_scope with D.
Infix "+" := dadd : dbl_scope.
Infix "-" := dsub : dbl_scope.
Infix "*" := dmul : dbl_scope.
Infix "/" := ddiv : dbl_scope.
Infix "<?" := dltb : dbl_scope.
Infix "<=?" := dleb : dbl_scope.
Infix "=?" := deqb : dbl_scope.
Notation "x >? y" := (dltb y x) (only parsing) : dbl_scope.
Notation "# z" := (of_Z z%Z) (at level 1, format "# z") : dbl_scope.

(** A decimal literal [n / d], such as [0.0001] or [0.2]: the quotient of two
    exactly represented integers, which on binary64 is the correctly rounded
    value a compiler gives the literal. *)
Definition dec `{Double D} (n d : Z) : D := (#n / #d)%D.

(** *** binary64 *)

Definition float_of_Z (z : Z) : float :=
  match z with
  | Z0 => 0%float
  | Zpos _ => PrimFloat.of_uint63 (Uint63.of_Z z)
  | Zneg p => PrimFloat.opp (PrimFloat.of_uint63 (Uint63.of_Z (Zpos p)))
  end.

#[export] Instance float_double : Double float := {|
  of_Z := float_of_Z;
  dadd := PrimFloat.add;
  dsub := PrimFloat.sub;
  dmul := PrimFloat.mul;
  ddiv := PrimFloat.div;
  dltb := PrimFloat.ltb;
  dleb := PrimFloat.leb;
  deqb := PrimFloat.eqb;
  dsqrt := PrimFloat.sqrt;
  dfabs := PrimFloat.abs;
  disnan := PrimFloat.is_nan;
  disinf := PrimFloat.is_infinity
|}.

(** The values of the C math library at the arguments the worked examples
    reach: [acos] at 1, 0 and -1, [cos] at the three angles these give,
    squares for [pow], and the defining formula of [hypot].  Any other
    argument gives NaN, so an example that leaves the table cannot pass
    unnoticed. *)
Definition pi_2 : float := 0x1.921fb54442d18p+0%float.
Definition pi_1 : float := 0x1.921fb54442d18p+1%float.

Definition table_acos (x : float) : float :=
  if PrimFloat.eqb x 1 then 0%float
  else if PrimFloat.eqb x 0 then pi_2
  else if PrimFloat.eqb x (-1) then pi_1
  else nan.

Definition table_cos (x : float) : float :=
  if PrimFloat.eqb x 0 then 1%float
  else if PrimFloat.eqb x pi_2 then 0x1.1a62633145c07p-54%float
  else if PrimFloat.eqb x pi_1 then (-1)%float
  else nan.

Definition table_pow (x y : float) : float :=
  if PrimFloat.eqb y 2 then (x * x)%float
  else if PrimFloat.eqb y 1 then x
  else nan.

Definition table_hypot (x y : float) : float :=
  PrimFloat.sqrt (x * x + y * y)%float.

Definition table_libm : Libm float := {|
  acos := table_acos;
  cos := table_cos;
  pow := table_pow;
  hypot := table_hypot
|}.

(** ** Data *)

(** [uint]/[unsigned int]: 32 bits, arithmetic modulo 2^32. *)
Definition wrap32 (z : Z) : Z := z mod 2 ^ 32.

Section Smoother.
Context {D : Type} {dbl : Double D} {libm : Libm D}.
Local Open Scope dbl_scope.

(** [#define EPSILON 0.0001] *)
Definition EPSILON : D := dec 1 10000.

(** [Eigen::Vector2d], indexed by [0] and [1], with the operations of Eigen
    that the code uses.  The negation [-v] is written as the product by -1,
    as the code itself does for [neg_pt_plus]; on [double] the two agree. *)
Record Vector2d := Vec { c0 : D; c1 : D }.

Definition dot (a b : Vector2d) : D := c0 a * c0 b + c1 a * c1 b.
Definition squaredNorm (a : Vector2d) : D := dot a a.
Definition norm (a : Vector2d) : D := dsqrt (squaredNorm a).
Definition vsub (a b : Vector2d) : Vector2d := Vec (c0 a - c0 b) (c1 a - c1 b).
Definition vneg (a : Vector2d) : Vector2d := Vec (#(-1) * c0 a) (#(-1) * c1 a).
Definition smul (s : D) (a : Vector2d) : Vector2d := Vec (s * c0 a) (s * c1 a).
Definition vmul (a : Vector2d) (s : D) : Vector2d := Vec (c0 a * s) (c1 a * s).
Definition vdiv (a : Vector2d) (s : D) : Vector2d := Vec (c0 a / s) (c1 a / s).

(** [struct CurvatureComputations].  Its constructor sets [valid] and nothing
    else: the seven numeric members start with whatever the memory holds. *)
Record CurvatureComputations := {
  valid : bool;
  delta_xi : Vector2d;
  delta_xi_p : Vector2d;
  delta_xi_norm : D;
  delta_xi_p_norm : D;
  delta_phi_i : D;
  turning_rad : D;
  ki_minus_kmax : D
}.

(** [CurvatureComputations()], over the indeterminate contents [junk] of the
    object's storage. *)
Definition CurvatureComputations_ctor (junk : CurvatureComputations) :
  CurvatureComputations :=
  {| valid := true;
     delta_xi := delta_xi junk;
     delta_xi_p := delta_xi_p junk;
     delta_xi_norm := delta_xi_norm junk;
     delta_xi_p_norm := delta_xi_p_norm junk;
     delta_phi_i := delta_phi_i junk;
     turning_rad := turning_rad junk;
     ki_minus_kmax := ki_minus_kmax junk |}.

Definition isValid (c : CurvatureComputations) : bool := valid c.

(** [struct CostComputations], members initialised to 0. *)
Record CostComputations := {
  cost : D;
  gradx : D;
  grady : D
}.

Definition CostComputations_init : CostComputations :=
  {| cost := #0; gradx := #0; grady := #0 |}.

(** The named cost values [FREE], [UNKNOWN], [INSCRIBED] and
    [MAX_NON_OBSTACLE] come from [smac_planner/types.hpp], which is not among
    the sources; they are parameters of the model. *)
Class CostValues := {
  FREE : D;
  UNKNOWN : D;
  INSCRIBED : D;
  MAX_NON_OBSTACLE : D
}.

(** The interface of [MinimalCostmap] (declared in
    [smac_planner/minimal_costmap.hpp], not among the sources) as the cost
    function uses it: [worldToMap] fails or yields a cell, [getCost] reads a
    cell, [sizeX] and [sizeY] are the dimensions in cells. *)
Record MinimalCostmap := {
  worldToMap : D -> D -> option (Z * Z);
  getCost : Z -> Z -> D;
  sizeX : Z;
  sizeY : Z
}.

(** [class UnconstrainedSmootherCostFunction]: its data members.
    [_num_params] is an [int] that holds twice a number of points, so a
    natural number here. *)
Record UnconstrainedSmootherCostFunction := {
  _num_params : nat;
  _Wsmooth : D;
  _Wcurve : D;
  _Wcollision : D;
  _Wcost : D;
  _Wchange : D;
  _max_turning_radius : D;
  _costmap : MinimalCostmap
}.

(** The constructor. *)
Definition UnconstrainedSmootherCostFunction_ctor
    (num_points : nat) (costmap : MinimalCostmap) :
  UnconstrainedSmootherCostFunction :=
  {| _num_params := 2 * num_points;
     _Wsmooth := #200000;
     _Wcost := dec 2 10;
     _Wchange := #1;
     _Wcurve := #2;
     _Wcollision := #1;
     _max_turning_radius := #10;
     _costmap := costmap |}.

Definition NumParameters (self : UnconstrainedSmootherCostFunction) : nat :=
  _num_params self.

Context {values : CostValues}.

(** ** The cost terms and their Jacobians

    A function that updates [r], [j0], [j1] or a cache through a reference
    returns the new values. *)

Definition addSmoothingResidual (weight : D) (pt pt_p pt_m : Vector2d) (r : D) : D :=
  r + weight * (
      dot pt_p pt_p
      - #4 * dot pt_p pt
      + #2 * dot pt_p pt_m
      + #4 * dot pt pt
      - #4 * dot pt pt_m
      + dot pt_m pt_m).

Definition addSmoothingJacobian (weight : D) (pt pt_p pt_m : Vector2d)
    (j0 j1 : D) : D * D :=
  (j0 + weight * (#(-4) * c0 pt_m + #8 * c0 pt - #4 * c0 pt_p),
   j1 + weight * (#(-4) * c1 pt_m + #8 * c1 pt - #4 * c1 pt_p)).

Definition addMaxCurvatureResidual (self : UnconstrainedSmootherCostFunction)
    (weight : D) (pt pt_p pt_m : Vector2d)
    (curvature_params : CurvatureComputations) (r : D) :
  CurvatureComputations * D :=
  let dxi := Vec (c0 pt - c0 pt_m) (c1 pt - c1 pt_m) in
  let dxi_p := Vec (c0 pt_p - c0 pt) (c1 pt_p - c1 pt) in
  let dxi_norm := norm dxi in
  let dxi_p_norm := norm dxi_p in
  if (dxi_norm <? EPSILON) || (dxi_p_norm <? EPSILON) ||
     disnan dxi_p_norm || disnan dxi_norm ||
     disinf dxi_p_norm || disinf dxi_norm
  then
    (* ensure we have non-nan values returned *)
    ({| valid := false;
        delta_xi := dxi;
        delta_xi_p := dxi_p;
        delta_xi_norm := dxi_norm;
        delta_xi_p_norm := dxi_p_norm;
        delta_phi_i := delta_phi_i curvature_params;
        turning_rad := turning_rad curvature_params;
        ki_minus_kmax := ki_minus_kmax curvature_params |}, r)
  else
    let delta_xi_by_xi_p := dxi_norm * dxi_p_norm in
    let projection := dot dxi dxi_p / delta_xi_by_xi_p in
    let projection :=
      if (dfabs (#1 - projection) <? EPSILON) || (dfabs (projection + #1) <? EPSILON)
      then #1 else projection in
    let dphi := acos projection in
    let trad := dphi / dxi_norm in
    let kmk := trad - _max_turning_radius self in
    if kmk <=? EPSILON then
      (* Quadratic penalty need not apply *)
      ({| valid := false;
          delta_xi := dxi;
          delta_xi_p := dxi_p;
          delta_xi_norm := dxi_norm;
          delta_xi_p_norm := dxi_p_norm;
          delta_phi_i := dphi;
          turning_rad := trad;
          ki_minus_kmax := kmk |}, r)
    else
      ({| valid := valid curvature_params;
          delta_xi := dxi;
          delta_xi_p := dxi_p;
          delta_xi_norm := dxi_norm;
          delta_xi_p_norm := dxi_p_norm;
          delta_phi_i := dphi;
          turning_rad := trad;
          ki_minus_kmax := kmk |},
       r + weight * kmk * kmk).

Definition normalizedOrthogonalComplement (a b : Vector2d) (a_norm b_norm : D) :
  Vector2d :=
  vdiv (vsub a (vdiv (vmul b (dot a b)) (squaredNorm b))) (a_norm * b_norm).

Definition addMaxCurvatureJacobian (weight : D) (pt pt_p pt_m : Vector2d)
    (curvature_params : CurvatureComputations) (j0 j1 : D) : D * D :=
  if negb (isValid curvature_params) then (j0, j1)
  else
    let partial_delta_phi_i_wrt_cost_delta_phi_i :=
      #(-1) / dsqrt (#1 - pow (cos (delta_phi_i curvature_params)) #2) in
    let ones := Vec #1 #1 in
    let neg_pt_plus := vneg pt_p in
    let p1 := normalizedOrthogonalComplement pt neg_pt_plus
                (delta_xi_norm curvature_params) (delta_xi_p_norm curvature_params) in
    let p2 := normalizedOrthogonalComplement neg_pt_plus pt
                (delta_xi_norm curvature_params) (delta_xi_p_norm curvature_params) in
    let u := #2 * ki_minus_kmax curvature_params in
    let common_prefix :=
      (#(-1) / delta_xi_norm curvature_params) * partial_delta_phi_i_wrt_cost_delta_phi_i in
    let common_suffix :=
      delta_phi_i curvature_params /
      (delta_xi_norm curvature_params * delta_xi_norm curvature_params) in
    let jacobian :=
      smul u (vsub (smul common_prefix (vsub (vneg p1) p2)) (smul common_suffix ones)) in
    (j0 + weight * c0 jacobian, j1 + weight * c1 jacobian).

(** [getCostmapGradient].  [mx] and [my] are [unsigned int]: [mx - 1] wraps
    at [mx = 0].  The last test of the source assigns [left_two], and
    [down_two] keeps its initial 0. *)
Definition getCostmapGradient (self : UnconstrainedSmootherCostFunction)
    (mx my : Z) (params : CostComputations) : CostComputations :=
  let cm := _costmap self in
  let right_one :=
    if (mx <? sizeX cm)%Z then getCost cm (wrap32 (mx + 1)) my else #0 in
  let right_two :=
    if (wrap32 (mx + 1) <? sizeX cm)%Z then getCost cm (wrap32 (mx + 2)) my else #0 in
  let left_one :=
    if (0 <? mx)%Z then getCost cm (wrap32 (mx - 1)) my else #0 in
  let left_two :=
    if (0 <? wrap32 (mx - 1))%Z then getCost cm (wrap32 (mx - 2)) my else #0 in
  let up_one :=
    if (my <? sizeY cm)%Z then getCost cm mx (wrap32 (my + 1)) else #0 in
  let up_two :=
    if (wrap32 (my + 1) <? sizeY cm)%Z then getCost cm mx (wrap32 (my + 2)) else #0 in
  let down_one :=
    if (0 <? my)%Z then getCost cm mx (wrap32 (my - 1)) else #0 in
  let down_two := #0 in
  let left_two :=
    if (0 <? wrap32 (my - 1))%Z then getCost cm mx (wrap32 (my - 2)) else left_two in
  (* find unit vector that describes that direction
     via 5 point taylor series approximation for gradient at Xi *)
  let gx := (#8 * up_one - up_two - #8 * down_one + down_two) / #12 in
  let gy := (#8 * right_one - right_two - #8 * left_one + left_two) / #12 in
  let grad_mag := hypot gx gy in
  if grad_mag >? EPSILON
  then {| cost := cost params; gradx := gx / grad_mag; grady := gy / grad_mag |}
  else {| cost := cost params; gradx := gx; grady := gy |}.

Definition addCollisionResidual (weight value : D) (params : CostComputations)
    (r : D) : CostComputations * D :=
  if value <? INSCRIBED then (params, r)
  else
    let c := #(-1) * weight *
             (value * value - #2 * MAX_NON_OBSTACLE * value
              + MAX_NON_OBSTACLE * MAX_NON_OBSTACLE) in
    (* cost is a good approximation for distance since there's a defined relationship *)
    ({| cost := c; gradx := gradx params; grady := grady params |}, r + c).

Definition addCollisionJacobian (self : UnconstrainedSmootherCostFunction)
    (weight : D) (mx my : Z) (value : D) (params : CostComputations)
    (j0 j1 : D) : CostComputations * (D * D) :=
  if value <? INSCRIBED then (params, (j0, j1))
  else
    let params := getCostmapGradient self mx my params in
    let common_prefix := #(-2) * weight * (value - MAX_NON_OBSTACLE) in
    (params, (j0 + common_prefix * gradx params, j1 + common_prefix * grady params)).

Definition addCostResidual (weight value : D) (params : CostComputations)
    (r : D) : D :=
  if (value =? FREE) || (value =? UNKNOWN) then r
  else if negb (cost params =? #0) then r + cost params
  else
    r + #(-1) * weight *
        (value * value - #2 * MAX_NON_OBSTACLE * value
         + MAX_NON_OBSTACLE * MAX_NON_OBSTACLE).

Definition addCostJacobian (self : UnconstrainedSmootherCostFunction)
    (weight : D) (mx my : Z) (value : D) (params : CostComputations)
    (j0 j1 : D) : CostComputations * (D * D) :=
  if (value =? FREE) || (value =? UNKNOWN) then (params, (j0, j1))
  else
    let params :=
      if (gradx params =? #0) && (grady params =? #0)
      then getCostmapGradient self mx my params else params in
    let common_prefix := #(-2) * weight * (value - MAX_NON_OBSTACLE) in
    (params, (j0 + common_prefix * gradx params, j1 + common_prefix * grady params)).

Definition addTurningRateChangeResidual (weight ki ki_m1 r : D) : D :=
  r + weight * (ki * ki + ki_m1 * ki_m1 - #2 * ki * ki_m1).

Definition addTurningRateChangeJacobian (weight ki ki_m1 j0 j1 : D) : D * D :=
  (j0 + #2 * weight * (ki - ki_m1), j1 + #2 * weight * (ki - ki_m1)).

(** ** [Evaluate] *)

(** [parameters[i]]; the callers hand in [NumParameters()] values, and a read
    past the end (undefined in C++) yields 0 here. *)
Definition rd (parameters : list D) (i : nat) : D := default #0 (parameters !! i).

(** The locals of [Evaluate] that live across the iterations of its loop, and
    the buffer behind [gradient] ([None] for [NULL]). *)
Record Locals := {
  cost_raw : D;
  grad_x_raw : D;
  grad_y_raw : D;
  mx : Z;
  my : Z;
  valid_coords : bool;
  costmap_cost : D;
  ki_m1 : D;
  curvature_params : CurvatureComputations;
  cost_params : CostComputations;
  gradient : option (list D)
}.

Definition Locals_init (junk : CurvatureComputations) (mx0 my0 : Z)
    (g : option (list D)) : Locals :=
  {| cost_raw := #0;
     grad_x_raw := #0;
     grad_y_raw := #0;
     mx := mx0;
     my := my0;
     valid_coords := true;
     costmap_cost := #0;
     ki_m1 := #0;
     curvature_params := CurvatureComputations_ctor junk;
     cost_params := CostComputations_init;
     gradient := g |}.

(** One pass through the body of the [for] loop, at index [i]. *)
Definition Evaluate_body (self : UnconstrainedSmootherCostFunction)
    (parameters : list D) (s : Locals) (i : nat) : Locals :=
  let x_index := (2 * i)%nat in
  let y_index := (2 * i + 1)%nat in
  if (i <? 1)%nat || (NumParameters self / 2 - 1 <=? i)%nat then s
  else
    let xi := Vec (rd parameters x_index) (rd parameters y_index) in
    let xi_p1 := Vec (rd parameters (x_index + 2)) (rd parameters (y_index + 2)) in
    let xi_m1 := Vec (rd parameters (x_index - 2)) (rd parameters (y_index - 2)) in
    (* compute cost *)
    let r := addSmoothingResidual (_Wsmooth self) xi xi_p1 xi_m1 (cost_raw s) in
    let '(cp, r) :=
      addMaxCurvatureResidual self (_Wcurve self) xi xi_p1 xi_m1 (curvature_params s) r in
    let r := addTurningRateChangeResidual (_Wchange self) (turning_rad cp) (ki_m1 s) r in
    let '(vc, mx', my', cc, (kp, r)) :=
      match worldToMap (_costmap self) (c0 xi) (c1 xi) with
      | Some (mx', my') =>
          let cc := getCost (_costmap self) mx' my' in
          let '(kp, r) := addCollisionResidual (_Wcollision self) cc (cost_params s) r in
          (true, mx', my', cc, (kp, addCostResidual (_Wcost self) cc kp r))
      | None => (false, mx s, my s, costmap_cost s, (cost_params s, r))
      end in
    let '(kp, (j0, j1), g) :=
      match gradient s with
      | Some g =>
          (* compute gradient *)
          let g := <[y_index := #0]> (<[x_index := #0]> g) in
          let '(j0, j1) :=
            addSmoothingJacobian (_Wsmooth self) xi xi_p1 xi_m1
              (grad_x_raw s) (grad_y_raw s) in
          let '(j0, j1) :=
            addMaxCurvatureJacobian (_Wcurve self) xi xi_p1 xi_m1 cp j0 j1 in
          let '(j0, j1) :=
            addTurningRateChangeJacobian (_Wchange self) (turning_rad cp) (ki_m1 s) j0 j1 in
          let '(kp, (j0, j1)) :=
            if vc then
              let '(kp, (j0, j1)) :=
                addCollisionJacobian self (_Wcollision self) mx' my' cc kp j0 j1 in
              addCostJacobian self (_Wcost self) mx' my' cc kp j0 j1
            else (kp, (j0, j1)) in
          (kp, (j0, j1), Some (<[y_index := j1]> (<[x_index := j0]> g)))
      | None => (kp, (grad_x_raw s, grad_y_raw s), None)
      end in
    {| cost_raw := r;
       grad_x_raw := j0;
       grad_y_raw := j1;
       mx := mx';
       my := my';
       valid_coords := vc;
       costmap_cost := cc;
       ki_m1 := turning_rad cp;
       curvature_params := cp;
       cost_params := kp;
       gradient := g |}.

(** The loop [for (uint i = 0; i != NumParameters() / 2; i++)]. *)
Definition Evaluate_loop (self : UnconstrainedSmootherCostFunction)
    (parameters : list D) (s : Locals) : Locals :=
  fold_left (Evaluate_body self parameters) (seq 0 (NumParameters self / 2)) s.

(** The outputs of [Evaluate]: the returned flag, [cost[0]] and the buffer
    behind [gradient]. *)
Record Outputs := {
  returned : bool;
  out_cost : D;
  out_gradient : option (list D)
}.

(** [Evaluate(parameters, cost, gradient)].  [junk] stands for the contents of
    the storage of [curvature_params] before its constructor ran, [mx0] and
    [my0] for those of the uninitialised [mx] and [my]. *)
Definition Evaluate (self : UnconstrainedSmootherCostFunction)
    (junk : CurvatureComputations) (mx0 my0 : Z)
    (parameters : list D) (g : option (list D)) : Outputs :=
  let s := Evaluate_loop self parameters (Locals_init junk mx0 my0 g) in
  {| returned := true; out_cost := cost_raw s; out_gradient := gradient s |}.

End Smoother.

(** ** What the gradient block leaves alone *)

Section CostIndependence.
Context {D : Type} {dbl : Double D} {libm : Libm D} {values : CostValues (D:=D)}.
Local Open Scope dbl_scope.

Implicit Types (self : UnconstrainedSmootherCostFunction (D:=D)).
Implicit Types (s : Locals (D:=D)) (p : CostComputations (D:=D)).

Lemma getCostmapGradient_cost self mx my p :
  cost (getCostmapGradient self mx my p) = cost p.
Proof. unfold getCostmapGradient. by case (_ <? _). Qed.

Lemma addCollisionJacobian_cost self w mx my v p j0 j1 :
  cost (addCollisionJacobian self w mx my v p j0 j1).1 = cost p.
Proof.
  unfold addCollisionJacobian. case (v <? INSCRIBED); simpl; [done|].
  apply getCostmapGradient_cost.
Qed.

Lemma addCostJacobian_cost self w mx my v p j0 j1 :
  cost (addCostJacobian self w mx my v p j0 j1).1 = cost p.
Proof.
  unfold addCostJacobian. case (_ || _); simpl; [done|].
  case (_ && _); [apply getCostmapGradient_cost | done].
Qed.

(** The collision residual reads nothing of the cache, and the cost residual
    reads only its [cost] member. *)
Lemma addCollisionResidual_cache w v p p' r :
  cost p = cost p' ->
  cost (addCollisionResidual w v p r).1 = cost (addCollisionResidual w v p' r).1 /\
  (addCollisionResidual w v p r).2 = (addCollisionResidual w v p' r).2.
Proof. unfold addCollisionResidual. by case (v <? INSCRIBED). Qed.

Lemma addCostResidual_cache w v p p' r :
  cost p = cost p' -> addCostResidual w v p r = addCostResidual w v p' r.
Proof. unfold addCostResidual. by intros ->. Qed.

(** Case analysis on the pairs that the Jacobians in the goal return: those
    of the three geometric terms, and those of the two field terms together
    with the fact that they keep the cached [cost]. *)
Ltac name_point_jacobians :=
  repeat match goal with
  | |- context [addSmoothingJacobian ?a ?b ?c ?d ?e ?f] =>
      destruct (addSmoothingJacobian a b c d e f)
  | |- context [addMaxCurvatureJacobian ?a ?b ?c ?d ?e ?f ?g] =>
      destruct (addMaxCurvatureJacobian a b c d e f g)
  | |- context [addTurningRateChangeJacobian ?a ?b ?c ?d ?e] =>
      destruct (addTurningRateChangeJacobian a b c d e)
  end.

Ltac name_field_jacobians :=
  repeat match goal with
  | |- context [addCollisionJacobian ?a ?b ?c ?d ?e ?f ?g ?h] =>
      let H := fresh in
      pose proof (addCollisionJacobian_cost a b c d e f g h) as H;
      destruct (addCollisionJacobian a b c d e f g h) as [? [? ?]]; simpl in H
  | |- context [addCostJacobian ?a ?b ?c ?d ?e ?f ?g ?h] =>
      let H := fresh in
      pose proof (addCostJacobian_cost a b c d e f g h) as H;
      destruct (addCostJacobian a b c d e f g h) as [? [? ?]]; simpl in H
  end.

(** Two sets of locals agree on what the cost depends on. *)
Definition cost_equiv s s' : Prop :=
  cost_raw s = cost_raw s' /\ ki_m1 s = ki_m1 s' /\
  curvature_params s = curvature_params s' /\
  cost (cost_params s) = cost (cost_params s').

Lemma Evaluate_body_cost_equiv self parameters s s' i :
  cost_equiv s s' ->
  cost_equiv (Evaluate_body self parameters s i) (Evaluate_body self parameters s' i).
Proof.
  intros (Hr & Hk & Hc & Hp). unfold Evaluate_body.
  case (_ || _); [by repeat split|].
  rewrite <- Hr, <- Hk, <- Hc.
  destruct (addMaxCurvatureResidual _ _ _ _ _ _ _) as [cp r].
  set (r1 := addTurningRateChangeResidual _ _ _ _).
  destruct (worldToMap _ _ _) as [[mx' my']|].
  - set (cc := getCost _ _ _).
    pose proof (addCollisionResidual_cache (_Wcollision self) cc
                  (cost_params s) (cost_params s') r1 Hp) as [Hkp Hc2].
    destruct (addCollisionResidual _ cc (cost_params s) r1) as [kp r2].
    destruct (addCollisionResidual _ cc (cost_params s') r1) as [kp' r2'].
    simpl in Hkp, Hc2. subst r2'.
    rewrite (addCostResidual_cache _ _ kp kp' _ Hkp).
    destruct (gradient s) as [g|], (gradient s') as [g'|]; simpl.
    all: name_point_jacobians.
    all: name_field_jacobians.
    all: repeat split; simpl.
    all: congruence.
  - destruct (gradient s) as [g|], (gradient s') as [g'|]; simpl.
    all: name_point_jacobians.
    all: by repeat split.
Qed.

Lemma Evaluate_loop_cost_equiv self parameters (l : list nat) s s' :
  cost_equiv s s' ->
  cost_equiv (fold_left (Evaluate_body self parameters) l s)
             (fold_left (Evaluate_body self parameters) l s').
Proof.
  revert s s'. induction l as [|i l IH]; intros s s' Hs; simpl; [done|].
  by apply IH, Evaluate_body_cost_equiv.
Qed.

(** C10.  The cost that [Evaluate] stores in [cost[0]] is the same value
    whether [gradient] is [NULL] or points to a buffer [g], for every object,
    path, cost field and initial content of the uninitialised locals: the
    gradient block of the loop writes nothing that a residual reads. *)
Theorem Evaluate_cost_independent_of_gradient
    self junk mx0 my0 (parameters g : list D) :
  out_cost (Evaluate self junk mx0 my0 parameters None) =
  out_cost (Evaluate self junk mx0 my0 parameters (Some g)).
Proof.
  unfold Evaluate, Evaluate_loop; simpl.
  by apply Evaluate_loop_cost_equiv.
Qed.

End CostIndependence.

(** ** The slots of the gradient buffer that the loop writes *)

Section GradientBuffer.
Context {D : Type} {dbl : Double D} {libm : Libm D} {values : CostValues (D:=D)}.
Local Open Scope dbl_scope.

Implicit Types (self : UnconstrainedSmootherCostFunction (D:=D)).
Implicit Types (s : Locals (D:=D)) (g : list D).

(** Slot [k] belongs to the first point or to the last one (or lies past the
    buffer). *)
Definition endpoint_slot self (k : nat) : Prop :=
  (k < 2 \/ 2 * (NumParameters self / 2 - 1) <= k)%nat.

(** The buffers [g] and [g'] have the same shape and agree on the endpoint
    slots. *)
Definition same_endpoints self g g' : Prop :=
  length g' = length g /\ forall k, endpoint_slot self k -> g' !! k = g !! k.

Lemma same_endpoints_refl self g : same_endpoints self g g.
Proof. by split. Qed.

Lemma same_endpoints_trans self g1 g2 g3 :
  same_endpoints self g1 g2 -> same_endpoints self g2 g3 -> same_endpoints self g1 g3.
Proof.
  intros [Hl1 Hk1] [Hl2 Hk2]. split; [congruence|].
  intros k Hk. by rewrite Hk2, Hk1.
Qed.

Lemma same_endpoints_insert self g (k : nat) (v : D) :
  (2 <= k < 2 * (NumParameters self / 2 - 1))%nat ->
  same_endpoints self g (<[k:=v]> g).
Proof.
  intros Hk. split; [apply length_insert|].
  intros k' [Hk'|Hk']; apply list_lookup_insert_ne; lia.
Qed.

Lemma Evaluate_body_gradient self parameters s i g :
  gradient s = Some g ->
  exists g', gradient (Evaluate_body self parameters s i) = Some g' /\
             same_endpoints self g g'.
Proof.
  intros Hg. unfold Evaluate_body.
  destruct (_ || _) eqn:Hb.
  { exists g. split; [done|apply same_endpoints_refl]. }
  apply orb_false_iff in Hb as [Hb1 Hb2].
  apply Nat.ltb_ge in Hb1. apply Nat.leb_gt in Hb2.
  rewrite Hg.
  destruct (addMaxCurvatureResidual _ _ _ _ _ _ _) as [cp r].
  destruct (match worldToMap _ _ _ with Some _ => _ | None => _ end)
    as [[[[vc mx'] my'] cc] [kp r']].
  destruct (addSmoothingJacobian _ _ _ _ _ _) as [a0 a1].
  destruct (addMaxCurvatureJacobian _ _ _ _ _ _ _) as [b0 b1].
  destruct (addTurningRateChangeJacobian _ _ _ _ _) as [d0 d1].
  destruct (if vc then _ else _) as [kp' [j0 j1]].
  simpl. eexists; split; [done|].
  repeat (eapply same_endpoints_trans; [|apply same_endpoints_insert; lia]).
  apply same_endpoints_refl.
Qed.

Lemma Evaluate_loop_gradient self parameters (l : list nat) s g :
  gradient s = Some g ->
  exists g', gradient (fold_left (Evaluate_body self parameters) l s) = Some g' /\
             same_endpoints self g g'.
Proof.
  revert s g. induction l as [|i l IH]; intros s g Hg; simpl.
  { exists g. split; [done|apply same_endpoints_refl]. }
  destruct (Evaluate_body_gradient self parameters s i g Hg) as (g1 & Hg1 & H1).
  destruct (IH _ _ Hg1) as (g2 & Hg2 & H2).
  exists g2. split; [done|]. by eapply same_endpoints_trans.
Qed.

(** C2, as the code has it.  For a path of [N >= 3] points ([2 N] values) and
    a gradient buffer [g] of the same shape, [Evaluate] hands back a buffer of
    that shape whose entries at the indices 0, 1, [2 N - 2] and [2 N - 1] are
    the entries [g] had there before the call: the loop skips the two
    boundary points before it stores anything, so their slots are never
    written (and are zero after the call only if they were zero before). *)
Theorem Evaluate_leaves_endpoint_slots
    self junk mx0 my0 (parameters g : list D) (N : nat) :
  NumParameters self = (2 * N)%nat ->
  (3 <= N)%nat ->
  length parameters = (2 * N)%nat ->
  length g = (2 * N)%nat ->
  exists g',
    out_gradient (Evaluate self junk mx0 my0 parameters (Some g)) = Some g' /\
    length g' = length parameters /\
    g' !! 0%nat = g !! 0%nat /\
    g' !! 1%nat = g !! 1%nat /\
    g' !! (2 * N - 2)%nat = g !! (2 * N - 2)%nat /\
    g' !! (2 * N - 1)%nat = g !! (2 * N - 1)%nat.
Proof.
  intros HN H3 Hp Hg. unfold Evaluate, Evaluate_loop; simpl.
  destruct (Evaluate_loop_gradient self parameters
              (seq 0 (NumParameters self / 2))
              (Locals_init junk mx0 my0 (Some g)) g eq_refl) as (g' & Hg' & Hl & Hk).
  exists g'. split; [done|]. split; [congruence|].
  assert (HN2 : (NumParameters self / 2 = N)%nat).
  { rewrite HN. rewrite Nat.mul_comm. apply Nat.div_mul. lia. }
  repeat split; apply Hk; unfold endpoint_slot; rewrite HN2; lia.
Qed.

End GradientBuffer.

(** ** The guards of the single terms *)

Section Terms.
Context {D : Type} {dbl : Double D} {libm : Libm D} {values : CostValues (D:=D)}.
Local Open Scope dbl_scope.

Implicit Types (self : UnconstrainedSmootherCostFunction (D:=D)).
Implicit Types (pt pt_p pt_m : Vector2d (D:=D)).
Implicit Types (cp : CurvatureComputations (D:=D)) (p : CostComputations (D:=D)).

(** The two segment vectors at a point, and the first test of
    [addMaxCurvatureResidual] on their norms. *)
Definition segment_in pt pt_m : Vector2d := Vec (c0 pt - c0 pt_m) (c1 pt - c1 pt_m).
Definition segment_out pt pt_p : Vector2d := Vec (c0 pt_p - c0 pt) (c1 pt_p - c1 pt).

Definition degenerate pt pt_p pt_m : bool :=
  (norm (segment_in pt pt_m) <? EPSILON) || (norm (segment_out pt pt_p) <? EPSILON) ||
  disnan (norm (segment_out pt pt_p)) || disnan (norm (segment_in pt pt_m)) ||
  disinf (norm (segment_out pt pt_p)) || disinf (norm (segment_in pt pt_m)).

(** The normalised dot product of the two segments, before the guard. *)
Definition projection_of pt pt_p pt_m : D :=
  dot (segment_in pt pt_m) (segment_out pt pt_p) /
  (norm (segment_in pt pt_m) * norm (segment_out pt pt_p)).

(** The quadratic of the collision and cost-avoidance terms. *)
Definition field_penalty (weight value : D) : D :=
  #(-1) * weight *
  (value * value - #2 * MAX_NON_OBSTACLE * value + MAX_NON_OBSTACLE * MAX_NON_OBSTACLE).

Lemma addMaxCurvatureResidual_degenerate self w pt pt_p pt_m cp r :
  degenerate pt pt_p pt_m = true ->
  valid (addMaxCurvatureResidual self w pt pt_p pt_m cp r).1 = false /\
  turning_rad (addMaxCurvatureResidual self w pt pt_p pt_m cp r).1 = turning_rad cp /\
  (addMaxCurvatureResidual self w pt pt_p pt_m cp r).2 = r.
Proof.
  unfold degenerate, segment_in, segment_out, addMaxCurvatureResidual.
  by intros ->.
Qed.

(** The flag only ever goes down: a call never sets it. *)
Lemma addMaxCurvatureResidual_valid_stays_false self w pt pt_p pt_m cp r :
  valid cp = false ->
  valid (addMaxCurvatureResidual self w pt pt_p pt_m cp r).1 = false.
Proof.
  intros Hv. unfold addMaxCurvatureResidual.
  case (_ || _); [done|]. by case (_ <=? _).
Qed.

Lemma addMaxCurvatureJacobian_invalid w pt pt_p pt_m cp j0 j1 :
  valid cp = false ->
  addMaxCurvatureJacobian w pt pt_p pt_m cp j0 j1 = (j0, j1).
Proof. unfold addMaxCurvatureJacobian, isValid. by intros ->. Qed.

(** What a call with non-degenerate segments computes and adds. *)
Lemma addMaxCurvatureResidual_regular self w pt pt_p pt_m cp r :
  degenerate pt pt_p pt_m = false ->
  let res := addMaxCurvatureResidual self w pt pt_p pt_m cp r in
  let k := ki_minus_kmax res.1 in
  delta_phi_i res.1 =
    acos (if (dfabs (#1 - projection_of pt pt_p pt_m) <? EPSILON)
             || (dfabs (projection_of pt pt_p pt_m + #1) <? EPSILON)
          then #1 else projection_of pt pt_p pt_m) /\
  turning_rad res.1 = delta_phi_i res.1 / norm (segment_in pt pt_m) /\
  k = turning_rad res.1 - _max_turning_radius self /\
  res.2 = (if k <=? EPSILON then r else r + w * k * k) /\
  valid res.1 = (if k <=? EPSILON then false else valid cp).
Proof.
  unfold degenerate, projection_of, segment_in, segment_out, addMaxCurvatureResidual.
  intros ->. cbv zeta.
  match goal with |- context [if ?b then (_, r) else _] => destruct b eqn:Hk end;
    simpl; rewrite Hk; by repeat split.
Qed.

(** C7, as the code has it.  With non-degenerate segments, a projection within
    [EPSILON] of +1 and a projection within [EPSILON] of -1 are both replaced
    by exactly 1 before [acos]: the turning angle is [acos 1] in either
    case, for a near-reversal as for a straight continuation. *)
Theorem projection_guard_sets_one self w pt pt_p pt_m cp r :
  degenerate pt pt_p pt_m = false ->
  ((dfabs (#1 - projection_of pt pt_p pt_m) <? EPSILON) = true ->
   delta_phi_i (addMaxCurvatureResidual self w pt pt_p pt_m cp r).1 = acos #1) /\
  ((dfabs (projection_of pt pt_p pt_m + #1) <? EPSILON) = true ->
   delta_phi_i (addMaxCurvatureResidual self w pt pt_p pt_m cp r).1 = acos #1).
Proof.
  intros Hd.
  destruct (addMaxCurvatureResidual_regular self w pt pt_p pt_m cp r Hd) as (Hphi & _).
  rewrite Hphi. split; intros ->; [done|]. by rewrite orb_true_r.
Qed.

(** C3, as the code has it.  At the value [FREE] and at the value [UNKNOWN] the
    cost-avoidance term adds nothing.  At the value [INSCRIBED] the collision
    term is active: it caches and adds
    [-1 * w * (v * v - 2 * MAX_NON_OBSTACLE * v + MAX_NON_OBSTACLE ^ 2)] at
    [v = INSCRIBED].  At [UNKNOWN] the collision term is silent only if
    [UNKNOWN < INSCRIBED], and adds the same quadratic otherwise. *)
Theorem field_terms_at_named_values (w r : D) p :
  (FREE =? FREE) = true ->
  (UNKNOWN =? UNKNOWN) = true ->
  (INSCRIBED <? INSCRIBED) = false ->
  addCostResidual w FREE p r = r /\
  addCostResidual w UNKNOWN p r = r /\
  addCollisionResidual w INSCRIBED p r =
    ({| cost := field_penalty w INSCRIBED; gradx := gradx p; grady := grady p |},
     r + field_penalty w INSCRIBED) /\
  addCollisionResidual w UNKNOWN p r =
    (if UNKNOWN <? INSCRIBED then (p, r)
     else ({| cost := field_penalty w UNKNOWN; gradx := gradx p; grady := grady p |},
           r + field_penalty w UNKNOWN)).
Proof.
  intros HF HU HI. unfold addCostResidual, addCollisionResidual, field_penalty.
  rewrite HF, HU, HI, orb_true_r. by repeat split.
Qed.

(** What the cost-avoidance term adds where it is active: the cached value
    if that is not 0, its own quadratic otherwise. *)
Lemma addCostResidual_active w value p r :
  (value =? FREE) || (value =? UNKNOWN) = false ->
  addCostResidual w value p r =
    (if cost p =? #0 then r + field_penalty w value else r + cost p).
Proof.
  unfold addCostResidual, field_penalty. intros ->. by case (cost p =? #0).
Qed.

End Terms.

(** ** Products of positive doubles

    The multiplication of binary64 is monotone on the positive numbers: this
    is derived from the specification of the operations ([SpecFloat],
    [FloatAxioms]), by following [binary_round_aux] on the exact product of
    two mantissas. *)

Section Binary64Products.
Local Open Scope Z_scope.

(** *** The number of bits of a mantissa *)

(** The number of bits of [p]. *)
Definition dig (p : positive) : Z := Zpos (digits2_pos p).

Lemma dig_bounds (p : positive) : 2 ^ (dig p - 1) <= Zpos p < 2 ^ dig p.
Proof.
  unfold dig. induction p as [p IH|p IH|]; cbn [digits2_pos].
  - rewrite Pos2Z.inj_succ.
    replace (Z.succ (Zpos (digits2_pos p)) - 1) with (Zpos (digits2_pos p) - 1 + 1) by lia.
    rewrite Z.pow_succ_r by lia. rewrite Z.pow_add_r by lia. lia.
  - rewrite Pos2Z.inj_succ.
    replace (Z.succ (Zpos (digits2_pos p)) - 1) with (Zpos (digits2_pos p) - 1 + 1) by lia.
    rewrite Z.pow_succ_r by lia. rewrite Z.pow_add_r by lia. lia.
  - simpl. lia.
Qed.

Lemma dig_pos (p : positive) : 1 <= dig p.
Proof. unfold dig. lia. Qed.

Lemma dig_mul_lower (p q : positive) : dig p + dig q - 1 <= dig (p * q).
Proof.
  pose proof (dig_bounds p) as [Hp _]. pose proof (dig_bounds q) as [Hq _].
  pose proof (dig_bounds (p * q)) as [_ Hpq].
  pose proof (dig_pos p). pose proof (dig_pos q).
  destruct (Z.le_gt_cases (dig p + dig q - 1) (dig (p * q))) as [|Hgt]; [done|].
  assert (H1 : 2 ^ (dig p - 1) * 2 ^ (dig q - 1) <= Zpos p * Zpos q)
    by (apply Z.mul_le_mono_nonneg; lia).
  rewrite <- Z.pow_add_r in H1 by lia.
  assert (2 ^ dig (p * q) <= 2 ^ (dig p - 1 + (dig q - 1)))
    by (apply Z.pow_le_mono_r; pose proof (dig_pos (p * q)); lia).
  rewrite Pos2Z.inj_mul in Hpq. lia.
Qed.

(** *** The right shift with round and sticky bits *)

(** What [n] steps of [shr_1] make of the mantissa [P]: the quotient by
    [2 ^ n], the round bit and the sticky bit. *)
Definition shr_inv (P : Z) (n : Z) (x : shr_record) : Prop :=
  shr_m x = P / 2 ^ n /\
  shr_r x = (2 ^ (n - 1) <=? P mod 2 ^ n) /\
  shr_s x = negb (P mod 2 ^ (n - 1) =? 0).

Lemma shr_1_first (P : Z) :
  0 <= P -> shr_inv P 1 (shr_1 (Build_shr_record P false false)).
Proof.
  intros HP. unfold shr_inv. change (2 ^ (1 - 1)) with 1. change (2 ^ 1) with 2.
  rewrite Z.mod_1_r.
  destruct P as [|[p|p|]|p]; try lia; cbn [shr_1 shr_m shr_r shr_s orb].
  - done.
  - rewrite Pos2Z.inj_xI.
    replace (2 * Zpos p + 1) with (1 + Zpos p * 2) by lia.
    rewrite Z.div_add, Z.mod_add by lia. done.
  - rewrite Pos2Z.inj_xO. rewrite (Z.mul_comm 2), Z.div_mul, Z.mod_mul by lia. done.
  - done.
Qed.

Lemma shr_1_m (x : shr_record) : 0 <= shr_m x -> shr_m (shr_1 x) = shr_m x / 2.
Proof.
  destruct x as [m r s]. cbn [shr_m]. intros Hm.
  destruct m as [|[p|p|]|p]; try lia; cbn [shr_1 shr_m]; try done.
  - rewrite Pos2Z.inj_xI.
    replace (2 * Zpos p + 1) with (1 + Zpos p * 2) by lia. by rewrite Z.div_add.
  - rewrite Pos2Z.inj_xO. by rewrite (Z.mul_comm 2), Z.div_mul.
Qed.

Lemma shr_1_r (x : shr_record) : 0 <= shr_m x -> shr_r (shr_1 x) = Z.odd (shr_m x).
Proof.
  destruct x as [m r s]. cbn [shr_m]. intros Hm.
  by destruct m as [|[p|p|]|p]; try lia; cbn [shr_1 shr_r].
Qed.

Lemma shr_1_s (x : shr_record) : shr_s (shr_1 x) = shr_r x || shr_s x.
Proof. destruct x as [m r s]. by destruct m as [|[p|p|]|[p|p|]]. Qed.

Lemma shr_1_step (P n : Z) (x : shr_record) :
  0 <= P -> 1 <= n -> shr_inv P n x -> shr_inv P (n + 1) (shr_1 x).
Proof.
  intros HP Hn (Hm & Hr & Hs).
  assert (H2n : 0 < 2 ^ n) by (apply Z.pow_pos_nonneg; lia).
  assert (H2n1 : 0 < 2 ^ (n - 1)) by (apply Z.pow_pos_nonneg; lia).
  assert (Hq : 0 <= P / 2 ^ n) by (apply Z.div_pos; lia).
  assert (Hsplit : P mod 2 ^ (n + 1) = P mod 2 ^ n + 2 ^ n * ((P / 2 ^ n) mod 2)).
  { rewrite Z.pow_add_r by lia. change (2 ^ 1) with 2. apply Z.rem_mul_r; lia. }
  assert (Hsplit' : P mod 2 ^ n = P mod 2 ^ (n - 1) + 2 ^ (n - 1) * ((P / 2 ^ (n - 1)) mod 2)).
  { replace n with (n - 1 + 1) at 1 by lia. rewrite Z.pow_add_r by lia.
    change (2 ^ 1) with 2. apply Z.rem_mul_r; lia. }
  pose proof (Z.mod_pos_bound P (2 ^ n) H2n).
  pose proof (Z.mod_pos_bound P (2 ^ (n - 1)) H2n1).
  pose proof (Z.mod_pos_bound (P / 2 ^ n) 2 ltac:(lia)).
  pose proof (Z.mod_pos_bound (P / 2 ^ (n - 1)) 2 ltac:(lia)).
  unfold shr_inv. replace (n + 1 - 1) with n by lia. split; [|split].
  - rewrite shr_1_m by (rewrite Hm; done). rewrite Hm.
    rewrite Z.pow_add_r by lia. change (2 ^ 1) with 2. rewrite Z.div_div by lia. done.
  - rewrite shr_1_r by (rewrite Hm; done). rewrite Hm.
    rewrite Hsplit. rewrite Zodd_mod.
    destruct (Z.eqb_spec ((P / 2 ^ n) mod 2) 1) as [Hb1|Hb1].
    + rewrite Hb1. symmetry. apply Z.leb_le. lia.
    + symmetry. apply Z.leb_gt. assert ((P / 2 ^ n) mod 2 = 0) as -> by lia. lia.
  - rewrite shr_1_s, Hr, Hs. rewrite Hsplit'.
    destruct (Z.eqb_spec (P mod 2 ^ (n - 1)) 0) as [Hb0|Hb0];
      destruct (Z.leb_spec (2 ^ (n - 1))
                  (P mod 2 ^ (n - 1) + 2 ^ (n - 1) * ((P / 2 ^ (n - 1)) mod 2))) as [Hle|Hlt];
      cbn [negb orb]; symmetry.
    all: set (b := (P / 2 ^ (n - 1)) mod 2) in *; set (u := P mod 2 ^ (n - 1)) in *;
      set (h := 2 ^ (n - 1)) in *; clearbody b u h;
      clear Hsplit Hsplit' H H1 Hm Hr Hs Hq H2n.
    all: assert (b = 0 \/ b = 1) as [-> | ->] by lia.
    all: first [ apply negb_true_iff, Z.eqb_neq; lia
               | apply negb_false_iff, Z.eqb_eq; lia
               | exfalso; lia ].
Qed.

Lemma iter_pos_iter {A : Type} (f : A -> A) (p : positive) (x : A) :
  SpecFloat.iter_pos f p x = Pos.iter f x p.
Proof.
  revert x. induction p as [p IH|p IH|]; intros x; cbn [SpecFloat.iter_pos Pos.iter].
  - rewrite !IH. by rewrite !Pos.iter_swap.
  - by rewrite !IH.
  - done.
Qed.

Lemma shr_iter (P : Z) (p : positive) :
  0 <= P ->
  shr_inv P (Zpos p) (SpecFloat.iter_pos shr_1 p (Build_shr_record P false false)).
Proof.
  intros HP. rewrite iter_pos_iter. induction p as [|p IH] using Pos.peano_ind.
  - by apply shr_1_first.
  - rewrite Pos.iter_succ, Pos2Z.inj_succ. unfold Z.succ.
    apply shr_1_step; [done|lia|done].
Qed.

(** *** Rounding to nearest, ties to even *)

(** [rnd P n] is [P / 2 ^ n] rounded to the nearest integer, a tie going to
    the even neighbour. *)
Definition rnd (P n : Z) : Z :=
  if n <=? 0 then P
  else P / 2 ^ n +
       (if (2 ^ (n - 1) <? P mod 2 ^ n)
           || ((P mod 2 ^ n =? 2 ^ (n - 1)) && Z.odd (P / 2 ^ n))
        then 1 else 0).

Lemma rnd_nonpos (P n : Z) : n <= 0 -> rnd P n = P.
Proof. intros Hn. unfold rnd. by rewrite (proj2 (Z.leb_le n 0)). Qed.

Lemma rnd_pos (P n : Z) :
  1 <= n ->
  rnd P n = P / 2 ^ n +
       (if (2 ^ (n - 1) <? P mod 2 ^ n)
           || ((P mod 2 ^ n =? 2 ^ (n - 1)) && Z.odd (P / 2 ^ n))
        then 1 else 0).
Proof. intros Hn. unfold rnd. by rewrite (proj2 (Z.leb_gt n 0)) by lia. Qed.

Lemma round_nearest_even_shr (P n : Z) (x : shr_record) :
  0 <= P -> 1 <= n -> shr_inv P n x ->
  round_nearest_even (shr_m x) (loc_of_shr_record x) = rnd P n.
Proof.
  intros HP Hn (Hm & Hr & Hs). rewrite rnd_pos by done.
  destruct x as [m r s]. cbn [shr_m shr_r shr_s] in *. subst m r s.
  assert (H2n1 : 0 < 2 ^ (n - 1)) by (apply Z.pow_pos_nonneg; lia).
  assert (Hsplit : P mod 2 ^ n = P mod 2 ^ (n - 1) + 2 ^ (n - 1) * ((P / 2 ^ (n - 1)) mod 2)).
  { replace n with (n - 1 + 1) at 1 by lia. rewrite Z.pow_add_r by lia.
    change (2 ^ 1) with 2. apply Z.rem_mul_r; lia. }
  pose proof (Z.mod_pos_bound P (2 ^ (n - 1)) H2n1) as Hu.
  pose proof (Z.mod_pos_bound (P / 2 ^ (n - 1)) 2 ltac:(lia)) as Hb.
  rewrite Hsplit. clear Hsplit.
  set (b := (P / 2 ^ (n - 1)) mod 2) in *. set (u := P mod 2 ^ (n - 1)) in *.
  set (h := 2 ^ (n - 1)) in *. set (q := P / 2 ^ n). clearbody b u h q.
  rewrite <- Z.negb_even.
  assert (b = 0 \/ b = 1) as [-> | ->] by lia.
  all: match goal with |- context [?hh <=? ?uu + ?hh * ?b] =>
         destruct (Z.leb_spec hh (uu + hh * b)), (Z.eqb_spec uu 0),
           (Z.ltb_spec hh (uu + hh * b)), (Z.eqb_spec (uu + hh * b) hh)
       end;
       cbn [loc_of_shr_record round_nearest_even negb orb andb]; try lia.
  all: destruct (Z.even q); cbn [negb]; lia.
Qed.

Lemma rnd_bounds (P n : Z) : 1 <= n -> P / 2 ^ n <= rnd P n <= P / 2 ^ n + 1.
Proof. intros Hn. rewrite rnd_pos by done. case (_ || _); lia. Qed.

Lemma rnd_mono (P P' n : Z) : 0 <= P <= P' -> 1 <= n -> rnd P n <= rnd P' n.
Proof.
  intros HP Hn.
  assert (H2n : 0 < 2 ^ n) by (apply Z.pow_pos_nonneg; lia).
  assert (Hq : P / 2 ^ n <= P' / 2 ^ n) by (apply Z.div_le_mono; lia).
  destruct (Z.eq_dec (P / 2 ^ n) (P' / 2 ^ n)) as [Heq|Hne].
  - rewrite !rnd_pos by done. rewrite <- Heq.
    pose proof (Z.div_mod P (2 ^ n) ltac:(lia)) as HP1.
    pose proof (Z.div_mod P' (2 ^ n) ltac:(lia)) as HP2.
    rewrite <- Heq in HP2.
    set (q := P / 2 ^ n) in *. set (u := P mod 2 ^ n) in *. set (u' := P' mod 2 ^ n) in *.
    set (h := 2 ^ (n - 1)) in *. set (N := 2 ^ n) in *.
    assert (u <= u') by lia. clearbody q u u' h N.
    destruct (Z.odd q); rewrite ?andb_true_r, ?andb_false_r, ?orb_false_r.
    + destruct (Z.ltb_spec h u), (Z.eqb_spec u h), (Z.ltb_spec h u'), (Z.eqb_spec u' h);
        cbn [orb]; lia.
    + destruct (Z.ltb_spec h u), (Z.ltb_spec h u'); lia.
  - pose proof (rnd_bounds P n Hn). pose proof (rnd_bounds P' n Hn). lia.
Qed.

Lemma rnd_shift (P n a : Z) :
  0 <= P -> 0 <= n -> 0 <= a -> rnd (P * 2 ^ a) (n + a) = rnd P n.
Proof.
  intros HP Hn Ha.
  assert (H2a : 0 < 2 ^ a) by (apply Z.pow_pos_nonneg; lia).
  destruct (Z.eq_dec n 0) as [->|Hn0].
  - rewrite (rnd_nonpos P 0) by lia. rewrite Z.add_0_l.
    destruct (Z.eq_dec a 0) as [->|Ha0].
    + rewrite rnd_nonpos by lia. change (2 ^ 0) with 1. lia.
    + rewrite rnd_pos by lia. rewrite Z.div_mul, Z.mod_mul by lia.
      assert (0 < 2 ^ (a - 1)) by (apply Z.pow_pos_nonneg; lia).
      destruct (Z.ltb_spec (2 ^ (a - 1)) 0), (Z.eqb_spec 0 (2 ^ (a - 1)));
        cbn [orb andb]; lia.
  - rewrite !rnd_pos by lia.
    assert (H2n : 0 < 2 ^ n) by (apply Z.pow_pos_nonneg; lia).
    assert (H2n1 : 0 < 2 ^ (n - 1)) by (apply Z.pow_pos_nonneg; lia).
    replace (2 ^ (n + a)) with (2 ^ n * 2 ^ a) by (rewrite Z.pow_add_r; lia).
    replace (2 ^ (n + a - 1)) with (2 ^ (n - 1) * 2 ^ a)
      by (rewrite <- Z.pow_add_r by lia; f_equal; lia).
    rewrite Z.div_mul_cancel_r by lia. rewrite Z.mul_mod_distr_r by lia.
    set (u := P mod 2 ^ n). set (h := 2 ^ (n - 1)). set (c := 2 ^ a) in *.
    set (q := P / 2 ^ n). clearbody u h c q.
    assert (Hlt : (h * c <? u * c) = (h <? u)).
    { destruct (Z.ltb_spec h u), (Z.ltb_spec (h * c) (u * c)); try done; nia. }
    assert (Heq : (u * c =? h * c) = (u =? h)).
    { destruct (Z.eqb_spec u h), (Z.eqb_spec (u * c) (h * c)); try done; nia. }
    by rewrite Hlt, Heq.
Qed.

(** A quotient with 53 significant bits keeps them, or gains one by rounding
    up to the next power of 2. *)
Lemma rnd_le_pow (v g : Z) : 0 <= v < 2 ^ (g + 53) -> 1 <= g -> rnd v g <= 2 ^ 53.
Proof.
  intros Hv Hg. assert (H2g : 0 < 2 ^ g) by (apply Z.pow_pos_nonneg; lia).
  pose proof (rnd_bounds v g Hg).
  assert (v / 2 ^ g < 2 ^ 53); [|lia].
  apply Z.div_lt_upper_bound; [done|]. rewrite <- Z.pow_add_r by lia. lia.
Qed.

Lemma rnd_ge_pow (v g : Z) : 2 ^ (g + 52) <= v -> 1 <= g -> 2 ^ 52 <= rnd v g.
Proof.
  intros Hv Hg. assert (H2g : 0 < 2 ^ g) by (apply Z.pow_pos_nonneg; lia).
  pose proof (rnd_bounds v g Hg).
  assert (2 ^ 52 <= v / 2 ^ g); [|lia].
  apply Z.div_le_lower_bound; [done|]. rewrite <- Z.pow_add_r by lia. lia.
Qed.

Lemma rnd_nonneg (v g : Z) : 0 <= v -> 0 <= rnd v g.
Proof.
  intros Hv. destruct (Z.le_gt_cases g 0) as [Hg|Hg].
  - by rewrite rnd_nonpos.
  - pose proof (rnd_bounds v g ltac:(lia)).
    assert (0 <= v / 2 ^ g); [|lia]. apply Z.div_pos; [done|]. apply Z.pow_pos_nonneg; lia.
Qed.

(** *** Rounding a positive integer mantissa into the format *)

(** The exponent the format gives a number with mantissa [P] and
    exponent [ex]. *)
Definition E_of (P : positive) (ex : Z) : Z := Z.max (dig P + ex - 53) (-1074).

Lemma fexp_E_of (P : positive) (ex : Z) :
  fexp prec emax (Zpos (digits2_pos P) + ex) = E_of P ex.
Proof. unfold fexp, SpecFloat.emin, prec, emax, E_of, dig. lia. Qed.

Lemma shr_nonpos (x : shr_record) (e n : Z) : n <= 0 -> shr x e n = (x, e).
Proof. intros Hn. by destruct n as [|p|p]; [| lia |]. Qed.

Lemma shr_exact (P e n : Z) :
  0 <= P ->
  round_nearest_even (shr_m (shr (Build_shr_record P false false) e n).1)
    (loc_of_shr_record (shr (Build_shr_record P false false) e n).1) = rnd P n /\
  (shr (Build_shr_record P false false) e n).2 = e + Z.max n 0.
Proof.
  intros HP. destruct (Z.le_gt_cases n 0) as [Hn|Hn].
  - rewrite shr_nonpos, rnd_nonpos by done. cbn. split; [done|lia].
  - destruct n as [|p|p]; try lia. cbn [shr fst snd]. split; [|lia].
    apply round_nearest_even_shr; [done|lia|]. by apply shr_iter.
Qed.

Lemma shr_fexp_exact (P : positive) (ex : Z) :
  shr_fexp prec emax (Zpos P) ex loc_Exact =
  shr (Build_shr_record (Zpos P) false false) ex (E_of P ex - ex).
Proof. unfold shr_fexp. cbn [Zdigits2 shr_record_of_loc]. by rewrite fexp_E_of. Qed.

(** The first number past the finite range, in units of [2 ^ -1074]. *)
Definition overflow_bound : Z := 2 ^ 2098.

(** [represents W r]: the float [r] is the non-negative number [W * 2 ^ -1074],
    or [+oo] when that is past the finite range. *)
Inductive represents : Z -> spec_float -> Prop :=
  | represents_zero : represents 0 (S754_zero false)
  | represents_finite m e :
      bounded prec emax m e = true ->
      represents (Zpos m * 2 ^ (e + 1074)) (S754_finite false m e)
  | represents_infinity W : overflow_bound <= W -> represents W (S754_infinity false).

Lemma bounded_facts (m : positive) (e : Z) :
  bounded prec emax m e = true ->
  -1074 <= e <= 971 /\ dig m <= 53 /\ (-1074 < e -> dig m = 53).
Proof.
  unfold bounded, canonical_mantissa. rewrite fexp_E_of. unfold E_of, prec, emax.
  intros [H1 H2]%andb_true_iff. apply Z.eqb_eq in H1. apply Z.leb_le in H2. lia.
Qed.

Lemma bounded_intro (m : positive) (e : Z) :
  -1074 <= e <= 971 -> dig m <= 53 -> (-1074 < e -> dig m = 53) ->
  bounded prec emax m e = true.
Proof.
  intros He Hd Hn. unfold bounded, canonical_mantissa. rewrite fexp_E_of.
  unfold E_of, prec, emax. apply andb_true_iff. split; [apply Z.eqb_eq|apply Z.leb_le]; lia.
Qed.

Lemma pow2_pos (a : Z) : 0 <= a -> 0 < 2 ^ a.
Proof. intros Ha. apply Z.pow_pos_nonneg; lia. Qed.

Lemma bounded_lt_top (m : positive) (e : Z) :
  bounded prec emax m e = true -> 0 < Zpos m * 2 ^ (e + 1074) < overflow_bound.
Proof.
  intros (He & Hd & _)%bounded_facts. pose proof (dig_bounds m) as [_ Hm].
  pose proof (pow2_pos (e + 1074) ltac:(lia)) as Hp. split; [lia|].
  assert (Hm' : Zpos m < 2 ^ 53).
  { eapply Z.lt_le_trans; [exact Hm|]. apply Z.pow_le_mono_r; lia. }
  assert (Hp' : 2 ^ (e + 1074) <= 2 ^ 2045) by (apply Z.pow_le_mono_r; lia).
  unfold overflow_bound. change (2 ^ 2098) with (2 ^ 53 * 2 ^ 2045).
  apply Z.lt_le_trans with (2 ^ 53 * 2 ^ (e + 1074)).
  - apply Z.mul_lt_mono_pos_r; lia.
  - apply Z.mul_le_mono_nonneg_l; lia.
Qed.

Lemma dig_lt_pow (m : positive) (d : Z) : 0 <= d -> Zpos m < 2 ^ d -> dig m <= d.
Proof.
  intros Hd Hm. pose proof (dig_bounds m) as [Hlo _]. pose proof (dig_pos m).
  destruct (Z.le_gt_cases (dig m) d) as [|Hgt]; [done|].
  assert (2 ^ d <= 2 ^ (dig m - 1)) by (apply Z.pow_le_mono_r; lia). lia.
Qed.

Lemma dig_ge_pow (m : positive) (d : Z) : 0 <= d -> 2 ^ d <= Zpos m -> d + 1 <= dig m.
Proof.
  intros Hd Hm. pose proof (dig_bounds m) as [_ Hhi]. pose proof (dig_pos m).
  destruct (Z.le_gt_cases (d + 1) (dig m)) as [|Hgt]; [done|].
  assert (2 ^ dig m <= 2 ^ d) by (apply Z.pow_le_mono_r; lia). lia.
Qed.

(** The range of the rounded mantissa. *)
Lemma rnd_range (P : positive) (n : Z) :
  0 <= n -> dig P <= n + 53 ->
  0 <= rnd (Zpos P) n <= 2 ^ 53 /\ (dig P = n + 53 -> 2 ^ 52 <= rnd (Zpos P) n).
Proof.
  intros Hn Hd. pose proof (dig_bounds P) as [Hlo Hhi]. pose proof (dig_pos P).
  destruct (Z.eq_dec n 0) as [->|Hn0].
  - rewrite rnd_nonpos by lia. split; [split; [lia|]|].
    + assert (2 ^ dig P <= 2 ^ 53) by (apply Z.pow_le_mono_r; lia). lia.
    + intros Heq. rewrite Heq in Hlo. exact Hlo.
  - split; [split|].
    + apply rnd_nonneg. lia.
    + apply rnd_le_pow; [|lia]. split; [lia|].
      eapply Z.lt_le_trans; [exact Hhi|]. apply Z.pow_le_mono_r; lia.
    + intros Heq. apply rnd_ge_pow; [|lia].
      replace (n + 52) with (dig P - 1) by lia. exact Hlo.
Qed.

(** What [binary_round_aux] makes of a positive integer mantissa that has at
    least as many bits as the format keeps. *)
Lemma binary_round_aux_rep (P : positive) (ex : Z) :
  ex <= E_of P ex ->
  represents (rnd (Zpos P) (E_of P ex - ex) * 2 ^ (E_of P ex + 1074))
      (binary_round_aux prec emax false (Zpos P) ex loc_Exact).
Proof.
  intros Hex. set (E := E_of P ex) in *.
  assert (HE : -1074 <= E) by (unfold E, E_of; lia).
  assert (Hd : dig P <= (E - ex) + 53) by (unfold E, E_of; lia).
  assert (Hd' : -1074 < E -> dig P = (E - ex) + 53) by (unfold E, E_of; lia).
  destruct (rnd_range P (E - ex) ltac:(lia) Hd) as [[Hq0 Hq1] Hq2].
  unfold binary_round_aux. rewrite shr_fexp_exact. fold E.
  destruct (shr_exact (Zpos P) ex (E - ex) ltac:(lia)) as [Hr He].
  destruct (shr _ ex (E - ex)) as [mrs' e']. cbn [fst snd] in Hr, He.
  rewrite Hr. replace e' with E by lia. clear Hr He mrs' e'.
  set (q := rnd (Zpos P) (E - ex)) in *. clearbody q.
  pose proof (pow2_pos (E + 1074) ltac:(lia)) as Hp.
  destruct (Z.eq_dec q (2 ^ 53)) as [->|Hq53].
  - (* the mantissa was rounded up to 2^53 *)
    unfold shr_fexp. change (Zdigits2 (2 ^ 53)) with 54.
    replace (fexp prec emax (54 + E) - E) with 1
      by (unfold fexp, SpecFloat.emin, prec, emax; lia).
    cbn [shr_record_of_loc shr SpecFloat.iter_pos].
    change (shr_m (shr_1 {| shr_m := 2 ^ 53; shr_r := false; shr_s := false |}))
      with (Zpos (2 ^ 52)).
    replace (2 ^ 53 * 2 ^ (E + 1074)) with (Zpos (2 ^ 52) * 2 ^ (E + 1 + 1074)).
    2:{ replace (E + 1 + 1074) with (Z.succ (E + 1074)) by lia.
        rewrite Z.pow_succ_r by lia. lia. }
    destruct (Z.leb_spec (E + 1) (emax - prec)) as [Hfin|Hinf].
    + apply represents_finite. apply bounded_intro.
      * unfold emax, prec in Hfin. lia.
      * by vm_compute.
      * done.
    + apply represents_infinity. unfold emax, prec in Hinf.
      assert (Hp' : 2 ^ 2046 <= 2 ^ (E + 1 + 1074)) by (apply Z.pow_le_mono_r; lia).
      unfold overflow_bound. change (2 ^ 2098) with (Zpos (2 ^ 52) * 2 ^ 2046).
      apply Z.mul_le_mono_nonneg_l; lia.
  - destruct q as [|m|m]; [| |lia].
    + (* everything was rounded away *)
      unfold shr_fexp. cbn [Zdigits2 shr_record_of_loc].
      rewrite shr_nonpos by (unfold fexp, SpecFloat.emin, prec, emax; lia).
      cbn [shr_m]. rewrite Z.mul_0_l. apply represents_zero.
    + assert (Hm : dig m <= 53) by (apply dig_lt_pow; lia).
      unfold shr_fexp. cbn [Zdigits2 shr_record_of_loc]. rewrite fexp_E_of.
      rewrite shr_nonpos by (unfold E_of; lia). cbn [shr_m].
      destruct (Z.leb_spec E (emax - prec)) as [Hfin|Hinf].
      * apply represents_finite. apply bounded_intro.
        -- unfold emax, prec in Hfin. lia.
        -- done.
        -- intros HE'. specialize (Hq2 (Hd' HE')).
           pose proof (dig_ge_pow m 52 ltac:(lia) Hq2). lia.
      * apply represents_infinity. unfold emax, prec in Hinf.
        specialize (Hq2 (Hd' ltac:(lia))).
        assert (Hp' : 2 ^ 2046 <= 2 ^ (E + 1074)) by (apply Z.pow_le_mono_r; lia).
        unfold overflow_bound. change (2 ^ 2098) with (2 ^ 52 * 2 ^ 2046).
        apply Z.mul_le_mono_nonneg; lia.
Qed.

(** *** The order of the floats and the order of their values *)

(** The value_of of a finite float, in units of [2 ^ -1074]. *)
Definition value_of (m : positive) (e : Z) : Z := Zpos m * 2 ^ (e + 1074).

Lemma value_lt_of_exponent (m1 m2 : positive) (e1 e2 : Z) :
  bounded prec emax m1 e1 = true -> bounded prec emax m2 e2 = true ->
  e1 < e2 -> value_of m1 e1 < value_of m2 e2.
Proof.
  intros (He1 & Hd1 & _)%bounded_facts (He2 & _ & Hn2)%bounded_facts Hlt.
  pose proof (dig_bounds m1) as [_ Hhi]. pose proof (dig_bounds m2) as [Hlo _].
  rewrite (Hn2 ltac:(lia)) in Hlo. change (2 ^ (53 - 1)) with (2 ^ 52) in Hlo.
  assert (Hm1 : Zpos m1 < 2 ^ 53).
  { eapply Z.lt_le_trans; [exact Hhi|]. apply Z.pow_le_mono_r; lia. }
  pose proof (pow2_pos (e1 + 1074) ltac:(lia)) as Hp1.
  assert (Hp : 2 * 2 ^ (e1 + 1074) <= 2 ^ (e2 + 1074)).
  { rewrite <- Z.pow_succ_r by lia. apply Z.pow_le_mono_r; lia. }
  unfold value_of. set (A := 2 ^ (e1 + 1074)) in *. set (B := 2 ^ (e2 + 1074)) in *.
  clearbody A B.
  apply Z.lt_le_trans with (2 ^ 53 * A); [apply Z.mul_lt_mono_pos_r; lia|].
  apply Z.le_trans with (2 ^ 52 * B); [lia|].
  apply Z.mul_le_mono_nonneg_r; lia.
Qed.

Lemma SFcompare_value (m1 m2 : positive) (e1 e2 : Z) :
  bounded prec emax m1 e1 = true -> bounded prec emax m2 e2 = true ->
  SFcompare (S754_finite false m1 e1) (S754_finite false m2 e2) =
  Some (value_of m1 e1 ?= value_of m2 e2).
Proof.
  intros H1 H2. cbn [SFcompare]. f_equal.
  destruct (Z.compare_spec e1 e2) as [->|Hlt|Hgt].
  - pose proof (bounded_facts _ _ H2) as (He & _).
    pose proof (pow2_pos (e2 + 1074) ltac:(lia)) as Hp.
    unfold value_of. change (PosDef.Pos.compare_cont Eq m1 m2) with (m1 ?= m2)%positive.
    symmetry. destruct (Pos.compare_spec m1 m2) as [->|Hlt|Hgt].
    + apply Z.compare_refl.
    + apply Z.compare_lt_iff. apply Z.mul_lt_mono_pos_r; lia.
    + apply Z.compare_gt_iff. apply Z.mul_lt_mono_pos_r; lia.
  - symmetry. apply Z.compare_lt_iff. by apply value_lt_of_exponent.
  - symmetry. apply Z.compare_gt_iff. by apply value_lt_of_exponent.
Qed.

Lemma SFleb_value (m1 m2 : positive) (e1 e2 : Z) :
  bounded prec emax m1 e1 = true -> bounded prec emax m2 e2 = true ->
  SFleb (S754_finite false m1 e1) (S754_finite false m2 e2) = true <->
  value_of m1 e1 <= value_of m2 e2.
Proof.
  intros H1 H2. unfold SFleb. rewrite SFcompare_value by done.
  destruct (Z.compare_spec (value_of m1 e1) (value_of m2 e2)); split; (done || lia).
Qed.

(** The order of two results, from the order of the numbers they stand for. *)
Lemma rep_le (W W' : Z) (r r' : spec_float) :
  represents W r -> represents W' r' -> W <= W' -> SFleb r r' = true.
Proof.
  intros [|m e Hb|V HV] [|m' e' Hb'|V' HV'] Hle; try done.
  - pose proof (bounded_lt_top _ _ Hb). lia.
  - by apply SFleb_value.
  - unfold overflow_bound in *. lia.
  - pose proof (bounded_lt_top _ _ Hb'). lia.
Qed.

(** *** The rounded product as a function of the exact product *)

Definition grid_exponent (v : Z) : Z := Z.max (Z.log2 v - 52) 1074.

(** The exact product [v], in units of [2 ^ -2148], rounded into the format:
    the result in units of [2 ^ -1074]. *)
Definition rounded (v : Z) : Z := rnd v (grid_exponent v) * 2 ^ (grid_exponent v - 1074).

Lemma dig_log2 (P : positive) : dig P = Z.log2 (Zpos P) + 1.
Proof.
  pose proof (dig_bounds P) as [Hlo Hhi]. pose proof (dig_pos P).
  symmetry. rewrite (Z.log2_unique (Zpos P) (dig P - 1)); [lia|lia|].
  replace (Z.succ (dig P - 1)) with (dig P) by lia. done.
Qed.

Lemma rounded_mono (v v' : Z) : 0 < v <= v' -> rounded v <= rounded v'.
Proof.
  intros Hv. unfold rounded.
  assert (Hl : Z.log2 v <= Z.log2 v') by (apply Z.log2_le_mono; lia).
  pose proof (Z.log2_spec v ltac:(lia)) as [_ Hhi].
  pose proof (Z.log2_spec v' ltac:(lia)) as [Hlo' _].
  pose proof (Z.log2_nonneg v). pose proof (Z.log2_nonneg v').
  assert (Hg : grid_exponent v <= grid_exponent v') by (unfold grid_exponent; lia).
  assert (Hg1 : 1074 <= grid_exponent v) by (unfold grid_exponent; lia).
  destruct (Z.eq_dec (grid_exponent v) (grid_exponent v')) as [Heq|Hne].
  - rewrite <- Heq. apply Z.mul_le_mono_nonneg_r.
    + pose proof (pow2_pos (grid_exponent v - 1074) ltac:(lia)). lia.
    + apply rnd_mono; lia.
  - assert (Hg' : grid_exponent v' = Z.log2 v' - 52) by (unfold grid_exponent in *; lia).
    assert (Hq : rnd v (grid_exponent v) <= 2 ^ 53).
    { apply rnd_le_pow; [|lia]. split; [lia|].
      eapply Z.lt_le_trans; [exact Hhi|]. apply Z.pow_le_mono_r; unfold grid_exponent; lia. }
    assert (Hq' : 2 ^ 52 <= rnd v' (grid_exponent v')).
    { apply rnd_ge_pow; [|lia]. rewrite Hg'.
      replace (Z.log2 v' - 52 + 52) with (Z.log2 v') by lia. done. }
    pose proof (rnd_nonneg v (grid_exponent v) ltac:(lia)) as Hq0.
    pose proof (pow2_pos (grid_exponent v - 1074) ltac:(lia)) as Hp.
    assert (Hpp : 2 * 2 ^ (grid_exponent v - 1074) <= 2 ^ (grid_exponent v' - 1074)).
    { rewrite <- Z.pow_succ_r by lia. apply Z.pow_le_mono_r; lia. }
    set (A := 2 ^ (grid_exponent v - 1074)) in *. set (B := 2 ^ (grid_exponent v' - 1074)) in *.
    set (q := rnd v (grid_exponent v)) in *. set (q' := rnd v' (grid_exponent v')) in *. clearbody A B q q'.
    apply Z.le_trans with (2 ^ 53 * A); [apply Z.mul_le_mono_nonneg_r; lia|].
    apply Z.le_trans with (2 ^ 52 * B); [lia|].
    apply Z.mul_le_mono_nonneg_r; lia.
Qed.

(** The product of two floats of the format has at least as many bits as
    the format keeps. *)
Lemma product_exponent (mx my : positive) (ex ey : Z) :
  bounded prec emax mx ex = true -> bounded prec emax my ey = true ->
  ex + ey <= E_of (mx * my) (ex + ey).
Proof.
  intros (Hex & Hdx & Hnx)%bounded_facts (Hey & Hdy & Hny)%bounded_facts.
  pose proof (dig_mul_lower mx my). pose proof (dig_pos mx). pose proof (dig_pos my).
  unfold E_of. lia.
Qed.

Lemma rounded_product (P : positive) (e : Z) :
  -2148 <= e -> e <= E_of P e ->
  rnd (Zpos P) (E_of P e - e) * 2 ^ (E_of P e + 1074) =
  rounded (Zpos P * 2 ^ (e + 2148)).
Proof.
  intros He HE. unfold rounded.
  assert (HG : grid_exponent (Zpos P * 2 ^ (e + 2148)) = E_of P e + 2148).
  { unfold grid_exponent, E_of. rewrite Z.log2_mul_pow2 by lia. rewrite dig_log2. lia. }
  rewrite HG.
  replace (E_of P e + 2148) with (E_of P e - e + (e + 2148)) at 1 by lia.
  rewrite rnd_shift by lia. f_equal. f_equal. lia.
Qed.

(** *** Multiplication is monotone on the positive floats *)

(** The positive numbers of the format: [+oo] and the finite ones with a
    canonical mantissa. *)
Definition positive_float (r : spec_float) : Prop :=
  r = S754_infinity false \/
  exists m e, r = S754_finite false m e /\ bounded prec emax m e = true.

Lemma positive_float_intro (r : spec_float) :
  valid_binary r = true -> SFltb (S754_zero false) r = true -> positive_float r.
Proof.
  destruct r as [s|s| |s m e]; try done.
  - destruct s; [done|]. by left.
  - destruct s; [done|]. intros Hb _. right. by exists m, e.
Qed.

Lemma rep_cases (W : Z) (r : spec_float) :
  represents W r -> r = S754_zero false \/ positive_float r.
Proof.
  intros [|m e Hb|V HV]; [by left| |].
  - right. right. by exists m, e.
  - right. by left.
Qed.

Lemma rep_le_infinity (W : Z) (r : spec_float) :
  represents W r -> SFleb r (S754_infinity false) = true.
Proof. by intros [|m e Hb|V HV]. Qed.

Lemma rep_zero_le (W : Z) (r : spec_float) :
  represents W r -> SFleb (S754_zero false) r = true.
Proof. by intros [|m e Hb|V HV]. Qed.

Lemma SFmul_finite_rep (mx my : positive) (ex ey : Z) :
  bounded prec emax mx ex = true -> bounded prec emax my ey = true ->
  represents (rounded (value_of mx ex * value_of my ey))
      (SFmul prec emax (S754_finite false mx ex) (S754_finite false my ey)).
Proof.
  intros Hx Hy. cbn [SFmul xorb].
  pose proof (product_exponent _ _ _ _ Hx Hy) as HE.
  pose proof (bounded_facts _ _ Hx) as (Hex & _). pose proof (bounded_facts _ _ Hy) as (Hey & _).
  replace (value_of mx ex * value_of my ey) with (Zpos (mx * my) * 2 ^ (ex + ey + 2148)).
  - rewrite <- rounded_product by lia. by apply binary_round_aux_rep.
  - unfold value_of. rewrite Pos2Z.inj_mul.
    replace (ex + ey + 2148) with ((ex + 1074) + (ey + 1074)) by lia.
    rewrite Z.pow_add_r by lia. ring.
Qed.

Lemma SFmul_rep (a b : spec_float) :
  positive_float a -> positive_float b -> exists W, represents W (SFmul prec emax a b).
Proof.
  intros [->|(mx & ex & -> & Hx)] [->|(my & ey & -> & Hy)].
  - exists overflow_bound. by apply represents_infinity.
  - exists overflow_bound. by apply represents_infinity.
  - exists overflow_bound. by apply represents_infinity.
  - eexists. by apply SFmul_finite_rep.
Qed.

Lemma SFmul_mono (a b a' b' : spec_float) :
  positive_float a -> positive_float b -> positive_float a' -> positive_float b' ->
  SFleb a a' = true -> SFleb b b' = true ->
  SFleb (SFmul prec emax a b) (SFmul prec emax a' b') = true.
Proof.
  intros Ha Hb Ha' Hb' Hle1 Hle2.
  destruct (SFmul_rep a b Ha Hb) as [W HW].
  destruct Ha' as [->|(mx' & ex' & -> & Hx')].
  { destruct Hb' as [->|(my' & ey' & -> & Hy')]; by eapply rep_le_infinity. }
  destruct Hb' as [->|(my' & ey' & -> & Hy')].
  { by eapply rep_le_infinity. }
  destruct Ha as [->|(mx & ex & -> & Hx)]; [done|].
  destruct Hb as [->|(my & ey & -> & Hy)]; [done|].
  apply SFleb_value in Hle1; [|done..]. apply SFleb_value in Hle2; [|done..].
  eapply rep_le; [by apply SFmul_finite_rep..|].
  pose proof (bounded_lt_top _ _ Hx) as [Hx0 _]. pose proof (bounded_lt_top _ _ Hy) as [Hy0 _].
  apply rounded_mono. fold (value_of mx ex) in Hx0. fold (value_of my ey) in Hy0. split.
  - by apply Z.mul_pos_pos.
  - apply Z.mul_le_mono_nonneg; lia.
Qed.

Lemma SFleb_refl_positive (a : spec_float) : positive_float a -> SFleb a a = true.
Proof.
  intros [->|(m & e & -> & Hb)]; [done|]. apply SFleb_value; [done..|lia].
Qed.

Lemma positive_float_le (a a' : spec_float) (W : Z) :
  positive_float a -> represents W a' -> SFleb a a' = true -> positive_float a'.
Proof.
  intros Ha HW Hle. destruct (rep_cases _ _ HW) as [->|]; [|done].
  by destruct Ha as [->|(m & e & -> & Hb)].
Qed.

Lemma SFltb_le_trans_zero (c x : spec_float) :
  SFltb (S754_zero false) c = true -> SFleb c x = true ->
  SFltb (S754_zero false) x = true.
Proof.
  destruct c as [s|s| |s m e]; try done; destruct s; try done;
    destruct x as [s'|s'| |s' m' e']; try done; by destruct s'.
Qed.

Lemma SFltb_SFleb (a b : spec_float) : SFltb a b = true -> SFleb a b = true.
Proof. unfold SFltb, SFleb. by destruct (SFcompare a b) as [[]|]. Qed.

(** [w * k * k] against [w * k' * k']. *)
Lemma SFmul_square_rep (w k : spec_float) :
  positive_float w -> positive_float k ->
  exists W, represents W (SFmul prec emax (SFmul prec emax w k) k).
Proof.
  intros Hw Hk. destruct (SFmul_rep w k Hw Hk) as [W HW].
  destruct (rep_cases _ _ HW) as [Hz|Hp]; [|by apply SFmul_rep].
  rewrite Hz. destruct Hk as [->|(m & e & -> & Hb)].
  - destruct Hw as [->|(mw & ew & -> & Hbw)]; done.
  - exists 0. apply represents_zero.
Qed.

Lemma SFmul_square_mono (w k k' : spec_float) :
  positive_float w -> positive_float k -> positive_float k' ->
  SFleb k k' = true ->
  SFleb (SFmul prec emax (SFmul prec emax w k) k)
        (SFmul prec emax (SFmul prec emax w k') k') = true.
Proof.
  intros Hw Hk Hk' Hle.
  pose proof (SFmul_mono w k w k' Hw Hk Hw Hk' (SFleb_refl_positive w Hw) Hle) as Hle1.
  destruct (SFmul_rep w k Hw Hk) as [W HW]. destruct (SFmul_rep w k' Hw Hk') as [W' HW'].
  destruct (rep_cases _ _ HW) as [Hz|Hp].
  - destruct (SFmul_square_rep w k' Hw Hk') as [V' HV'].
    rewrite Hz. destruct Hk as [->|(m & e & -> & Hb)].
    + destruct Hw as [->|(mw & ew & -> & Hbw)]; done.
    + cbn [SFmul xorb]. by eapply rep_zero_le.
  - apply SFmul_mono; try done. by eapply positive_float_le.
Qed.

Lemma SFltb_value (m1 m2 : positive) (e1 e2 : Z) :
  bounded prec emax m1 e1 = true -> bounded prec emax m2 e2 = true ->
  SFltb (S754_finite false m1 e1) (S754_finite false m2 e2) = true <->
  value_of m1 e1 < value_of m2 e2.
Proof.
  intros H1 H2. unfold SFltb. rewrite SFcompare_value by done.
  destruct (Z.compare_spec (value_of m1 e1) (value_of m2 e2)); split; (done || lia).
Qed.

Lemma SFcompare_antisym (a b : spec_float) :
  SFcompare b a = option_map CompOpp (SFcompare a b).
Proof.
  destruct a as [s|s| |s m e], b as [s'|s'| |s' m' e']; cbn [SFcompare option_map];
    try done; try (by destruct s); try (by destruct s'); try (by destruct s, s').
  f_equal. rewrite (Z.compare_antisym e e').
  destruct s, s'; try done; destruct (e ?= e'); cbn [CompOpp]; try done.
  - f_equal. change (PosDef.Pos.compare_cont Eq) with Pos.compare.
    apply Pos.compare_antisym.
  - change (PosDef.Pos.compare_cont Eq) with Pos.compare. apply Pos.compare_antisym.
Qed.

Lemma SFltb_not_SFleb (a b : spec_float) : SFltb a b = true -> SFleb b a = false.
Proof.
  unfold SFltb, SFleb. rewrite (SFcompare_antisym a b).
  by destruct (SFcompare a b) as [[]|].
Qed.

Lemma SFltb_le_trans (a b c : spec_float) :
  positive_float a -> positive_float b -> positive_float c ->
  SFltb a b = true -> SFleb b c = true -> SFltb a c = true.
Proof.
  intros [->|(ma & ea & -> & Ha)] [->|(mb & eb & -> & Hb)] [->|(mc & ec & -> & Hc)];
    try done.
  intros Hab Hbc. apply SFltb_value in Hab; [|done..]. apply SFleb_value in Hbc; [|done..].
  apply SFltb_value; [done..|lia].
Qed.

(** *** The operations of binary64 *)

Local Open Scope float_scope.

Lemma positive_of_ltb (x : float) : (0 <? x) = true -> positive_float (Prim2SF x).
Proof.
  intros Hx. rewrite FloatAxioms.ltb_spec in Hx.
  apply positive_float_intro; [apply Prim2SF_valid|exact Hx].
Qed.

Lemma ltb_leb_trans_zero (c x : float) :
  (0 <? c) = true -> (c <=? x) = true -> (0 <? x) = true.
Proof. rewrite !FloatAxioms.ltb_spec, FloatAxioms.leb_spec. apply SFltb_le_trans_zero. Qed.

Lemma mul_le_mono_positive (x y x' y' : float) :
  (0 <? x) = true -> (0 <? y) = true ->
  (x <=? x') = true -> (y <=? y') = true ->
  (x * y <=? x' * y') = true.
Proof.
  intros Hx Hy Hxx Hyy.
  assert (Hx' : (0 <? x') = true).
  { by apply (ltb_leb_trans_zero x x'). }
  assert (Hy' : (0 <? y') = true).
  { by apply (ltb_leb_trans_zero y y'). }
  rewrite FloatAxioms.leb_spec in *. rewrite !FloatAxioms.mul_spec.
  apply SFmul_mono; try done; by apply positive_of_ltb.
Qed.

Lemma ltb_leb (x y : float) : (x <? y) = true -> (x <=? y) = true.
Proof. rewrite FloatAxioms.ltb_spec, FloatAxioms.leb_spec. apply SFltb_SFleb. Qed.

Lemma square_le_mono_positive (w k k' : float) :
  (0 <? w) = true -> (0 <? k) = true -> (k <=? k') = true ->
  (w * k * k <=? w * k' * k') = true.
Proof.
  intros Hw Hk Hkk.
  pose proof (ltb_leb_trans_zero k k' Hk Hkk) as Hk'.
  rewrite FloatAxioms.leb_spec in *. rewrite !FloatAxioms.mul_spec.
  apply SFmul_square_mono; try done; by apply positive_of_ltb.
Qed.

Lemma ltb_not_leb (x y : float) : (x <? y) = true -> (y <=? x) = false.
Proof. rewrite FloatAxioms.ltb_spec, FloatAxioms.leb_spec. apply SFltb_not_SFleb. Qed.

Lemma ltb_leb_trans_positive (a b c : float) :
  (0 <? a) = true -> (a <? b) = true -> (b <=? c) = true -> (a <? c) = true.
Proof.
  intros Ha Hab Hbc.
  pose proof (ltb_leb_trans_zero a b Ha (ltb_leb a b Hab)) as Hb.
  pose proof (ltb_leb_trans_zero b c Hb Hbc) as Hc.
  rewrite FloatAxioms.ltb_spec in Hab |- *. rewrite FloatAxioms.leb_spec in Hbc.
  by apply (SFltb_le_trans _ (Prim2SF b)); try apply positive_of_ltb.
Qed.

End Binary64Products.

(** ** The curvature-limit penalty *)

Section CurvatureEstimate.
Context {D : Type} {dbl : Double D} {libm : Libm D}.
Local Open Scope dbl_scope.

Implicit Types (self : UnconstrainedSmootherCostFunction (D:=D)).
Implicit Types (pt pt_p pt_m : Vector2d (D:=D)) (cp : CurvatureComputations (D:=D)).

(** The projection after the guard, and the turning-radius estimate that the
    code computes from the three points: the angle between the two segments,
    [acos] of the guarded projection, over the length of the incoming
    segment. *)
Definition guarded_projection pt pt_p pt_m : D :=
  if (dfabs (#1 - projection_of pt pt_p pt_m) <? EPSILON)
     || (dfabs (projection_of pt pt_p pt_m + #1) <? EPSILON)
  then #1 else projection_of pt pt_p pt_m.

Definition turning_estimate pt pt_p pt_m : D :=
  acos (guarded_projection pt pt_p pt_m) / norm (segment_in pt pt_m).

(** With non-degenerate segments the estimate stored is the one of the three
    points, and the term tests its excess over the maximum. *)
Lemma addMaxCurvatureResidual_estimate self w pt pt_p pt_m cp r :
  degenerate pt pt_p pt_m = false ->
  let k := turning_estimate pt pt_p pt_m - _max_turning_radius self in
  let res := addMaxCurvatureResidual self w pt pt_p pt_m cp r in
  turning_rad res.1 = turning_estimate pt pt_p pt_m /\
  ki_minus_kmax res.1 = k /\
  res.2 = (if k <=? EPSILON then r else r + w * k * k).
Proof.
  intros Hd k res.
  destruct (addMaxCurvatureResidual_regular self w pt pt_p pt_m cp r Hd)
    as (Hphi & Htr & Hk & Hres & _).
  cbv zeta in Hphi, Htr, Hk, Hres. fold res in Hphi, Htr, Hk, Hres.
  assert (Hest : turning_rad res.1 = turning_estimate pt pt_p pt_m).
  { rewrite Htr, Hphi. reflexivity. }
  assert (Hk' : ki_minus_kmax res.1 = k).
  { rewrite Hk, Hest. reflexivity. }
  rewrite Hk' in Hres. done.
Qed.

End CurvatureEstimate.

Section CurvatureLimit.
Context {libm : Libm float}.
Local Open Scope dbl_scope.

(** The smallest positive normal double, [DBL_MIN] of [<float.h>]. *)
Definition DBL_MIN : float := 0x1p-1022%float.

Lemma penalty_positive (w k : float) :
  (EPSILON <? k) = true -> (DBL_MIN <=? w) = true -> (#0 <? w * k * k) = true.
Proof.
  intros Hk Hw.
  assert (H1 : (DBL_MIN * EPSILON <=? w * k) = true).
  { apply mul_le_mono_positive; [reflexivity|reflexivity|exact Hw|by apply ltb_leb]. }
  assert (H2 : (DBL_MIN * EPSILON * EPSILON <=? w * k * k) = true).
  { apply mul_le_mono_positive; [reflexivity|reflexivity|exact H1|by apply ltb_leb]. }
  by apply (ltb_leb_trans_zero (DBL_MIN * EPSILON * EPSILON)).
Qed.

Lemma excess_positive (k : float) : (EPSILON <? k) = true -> (#0 <? k) = true.
Proof.
  intros Hk. apply (ltb_leb_trans_zero EPSILON); [reflexivity|by apply ltb_leb].
Qed.

Lemma excess_active (k : float) : (EPSILON <? k) = true -> (k <=? EPSILON) = false.
Proof. apply ltb_not_leb. Qed.

(** C8, as the code has it on binary64.  At a point with non-degenerate
    segments, let [k] be the excess of the turning-radius estimate of the
    three points over the maximum.  The estimate is the one the call stores.
    If [k <= EPSILON] the cost is left as it is.  Otherwise the cost becomes
    [r + w * k * k].  If [k > EPSILON] and the weight is a normal positive
    double, [w * k * k] is strictly positive.  Of two such points, for a
    positive weight, the one with the larger excess is active too and its
    [w * k' * k'] is at least [w * k * k]. *)
Theorem curvature_limit_penalty_binary64
    (self : UnconstrainedSmootherCostFunction (D:=float)) (w : float)
    pt pt_p pt_m cp (r : float) pt' pt_p' pt_m' cp' (r' : float) :
  degenerate pt pt_p pt_m = false ->
  degenerate pt' pt_p' pt_m' = false ->
  let k := turning_estimate pt pt_p pt_m - _max_turning_radius self in
  let k' := turning_estimate pt' pt_p' pt_m' - _max_turning_radius self in
  let res := addMaxCurvatureResidual self w pt pt_p pt_m cp r in
  let res' := addMaxCurvatureResidual self w pt' pt_p' pt_m' cp' r' in
  turning_rad res.1 = turning_estimate pt pt_p pt_m /\
  ((k <=? EPSILON) = true -> res.2 = r) /\
  ((k <=? EPSILON) = false -> res.2 = r + w * k * k) /\
  ((EPSILON <? k) = true -> (DBL_MIN <=? w) = true -> (#0 <? w * k * k) = true) /\
  ((EPSILON <? k) = true -> (k <=? k') = true -> (#0 <? w) = true ->
   res.2 = r + w * k * k /\ res'.2 = r' + w * k' * k' /\
   (w * k * k <=? w * k' * k') = true).
Proof.
  intros Hd Hd' k k' res res'.
  destruct (addMaxCurvatureResidual_estimate self w pt pt_p pt_m cp r Hd)
    as (Hest & _ & Hres).
  destruct (addMaxCurvatureResidual_estimate self w pt' pt_p' pt_m' cp' r' Hd')
    as (_ & _ & Hres').
  fold k res in Hres. fold k' res' in Hres'. fold res in Hest.
  clearbody k k' res res'.
  split; [exact Hest|]. split; [|split; [|split]].
  - intros Hk. by rewrite Hres, Hk.
  - intros Hk. by rewrite Hres, Hk.
  - apply penalty_positive.
  - intros Hk Hkk Hw.
    assert (Hk' : (EPSILON <? k') = true).
    { apply (ltb_leb_trans_positive EPSILON k k'); [reflexivity|exact Hk|exact Hkk]. }
    rewrite Hres, Hres', (excess_active k Hk), (excess_active k' Hk').
    split; [done|]. split; [done|].
    apply square_le_mono_positive; [exact Hw|by apply excess_positive|exact Hkk].
Qed.

End CurvatureLimit.

(** ** Reference readings of the specification *)

Section Readings.
Context {D : Type} {dbl : Double D} {libm : Libm D} {values : CostValues (D:=D)}.
Local Open Scope dbl_scope.

(** The gradient that the five Jacobians of point [i] produce on their own:
    the gradient block of the loop body run from zeroed accumulators, the
    caches being as the sweep left them on entry to iteration [i]. *)
Definition own_contribution (self : UnconstrainedSmootherCostFunction)
    (parameters : list D) (s : Locals) (i : nat) : D * D :=
  let s0 :=
    {| cost_raw := cost_raw s;
       grad_x_raw := #0;
       grad_y_raw := #0;
       mx := mx s;
       my := my s;
       valid_coords := valid_coords s;
       costmap_cost := costmap_cost s;
       ki_m1 := ki_m1 s;
       curvature_params := curvature_params s;
       cost_params := cost_params s;
       gradient := gradient s |} in
  let s' := Evaluate_body self parameters s0 i in
  (grad_x_raw s', grad_y_raw s').

(** The cost-field gradient helper as the specification words it: per axis the
    five-point stencil over the neighbours at distance 1 and 2, a neighbour
    outside the grid counting as 0 and not being read, the estimate
    normalised when its magnitude exceeds [EPSILON] and the zero vector
    otherwise.  The first component is taken along [my] and the second along
    [mx], as in the code. *)
Definition in_grid (cm : MinimalCostmap (D:=D)) (x y : Z) : bool :=
  ((0 <=? x) && (x <? sizeX cm) && (0 <=? y) && (y <? sizeY cm))%Z.

Definition sample (cm : MinimalCostmap (D:=D)) (x y : Z) : D :=
  if in_grid cm x y then getCost cm x y else #0.

Definition five_point (minus_two minus_one plus_one plus_two : D) : D :=
  (#8 * plus_one - plus_two - #8 * minus_one + minus_two) / #12.

Definition five_point_gradient (cm : MinimalCostmap (D:=D)) (mx my : Z) : D * D :=
  let gx := five_point (sample cm mx (my - 2)) (sample cm mx (my - 1))
                       (sample cm mx (my + 1)) (sample cm mx (my + 2)) in
  let gy := five_point (sample cm (mx - 2) my) (sample cm (mx - 1) my)
                       (sample cm (mx + 1) my) (sample cm (mx + 2) my) in
  let grad_mag := hypot gx gy in
  if grad_mag >? EPSILON then (gx / grad_mag, gy / grad_mag) else (#0, #0).

End Readings.

(** ** Runs on binary64 *)

Section Runs.
Local Open Scope float_scope.

(** The cost values of the navigation2 costmap. *)
Definition nav2_values : CostValues (D:=float) :=
  {| FREE := 0; UNKNOWN := 255; INSCRIBED := 253; MAX_NON_OBSTACLE := 252 |}.

#[local] Existing Instances table_libm nav2_values.

(** A cost field that no point of the path falls on. *)
Definition off_map : MinimalCostmap (D:=float) :=
  {| worldToMap := fun _ _ => None; getCost := fun _ _ => 0; sizeX := 0; sizeY := 0 |}.

(** A 5 x 5 cost field with the cell contents [cells]. *)
Definition grid5 (cells : Z -> Z -> float) : MinimalCostmap (D:=float) :=
  {| worldToMap := fun _ _ => None; getCost := cells; sizeX := 5; sizeY := 5 |}.

(** A cost field that is 0 except for the value 12 at [(x, y)]. *)
Definition spike (x y : Z) : Z -> Z -> float :=
  fun x' y' => if ((x' =? x) && (y' =? y))%Z then 12 else 0.

(** The storage of [curvature_params] before construction, all zero except
    for [turning_rad], which holds [t]. *)
Definition junk_with (t : float) : CurvatureComputations (D:=float) :=
  {| valid := false;
     delta_xi := Vec 0 0;
     delta_xi_p := Vec 0 0;
     delta_xi_norm := 0;
     delta_xi_p_norm := 0;
     delta_phi_i := 0;
     turning_rad := t;
     ki_minus_kmax := 0 |}.

Definition smoother (num_points : nat) : UnconstrainedSmootherCostFunction (D:=float) :=
  UnconstrainedSmootherCostFunction_ctor num_points off_map.

Example EPSILON_binary64 : EPSILON (D:=float) = 0x1.a36e2eb1c432dp-14.
Proof. reflexivity. Qed.

Example Wcost_binary64 : _Wcost (smoother 3) = 0x1.999999999999ap-3.
Proof. reflexivity. Qed.

(** C1.  On the straight path (0,0), (1,0), (3,0), (6,0), off the cost field,
    each of the two interior points contributes the gradient (-800000, 0) on
    its own.  [Evaluate] stores (-800000, 0) for point 1 and (-1600000, 0)
    for point 2: the slots of point 2 hold the contribution of point 1 as
    well, since [grad_x_raw] and [grad_y_raw] are never reset. *)
Theorem gradient_slots_accumulate :
  let self := smoother 4 in
  let path := [0; 0; 1; 0; 3; 0; 6; 0] in
  let s1 := Locals_init (junk_with 0) 0 0 (Some (replicate 8 0)) in
  let s2 := fold_left (Evaluate_body self path) (seq 0 2) s1 in
  own_contribution self path s1 1 = (-800000, 0) /\
  own_contribution self path s2 2 = (-800000, 0) /\
  out_gradient (Evaluate self (junk_with 0) 0 0 path (Some (replicate 8 0))) =
    Some [0; 0; -800000; 0; -1600000; 0; 0; 0].
Proof. vm_compute. by repeat split. Qed.

(** C2 fails as stated: with the buffer holding 7 everywhere before the call,
    the four endpoint slots hold 7 after it, not 0. *)
Lemma endpoint_slots_not_zeroed :
  out_gradient (Evaluate (smoother 3) (junk_with 0) 0 0
                  [0; 0; 1; 0; 2; 0] (Some (replicate 6 7))) =
    Some [7; 7; 0; 0; 7; 7] /\
  (7 =? 0) = false.
Proof. vm_compute. by split. Qed.

Lemma Evaluate_leaves_endpoint_slots_witness :
  NumParameters (smoother 3) = (2 * 3)%nat /\
  (3 <= 3)%nat /\
  length [0; 0; 1; 0; 2; 0] = (2 * 3)%nat /\
  length (replicate 6 7) = (2 * 3)%nat /\
  exists g',
    out_gradient (Evaluate (smoother 3) (junk_with 0) 0 0
                    [0; 0; 1; 0; 2; 0] (Some (replicate 6 7))) = Some g' /\
    length g' = length [0; 0; 1; 0; 2; 0] /\
    g' !! 0%nat = replicate 6 7 !! 0%nat /\
    g' !! 1%nat = replicate 6 7 !! 1%nat /\
    g' !! (2 * 3 - 2)%nat = replicate 6 7 !! (2 * 3 - 2)%nat /\
    g' !! (2 * 3 - 1)%nat = replicate 6 7 !! (2 * 3 - 1)%nat.
Proof.
  split; [reflexivity|]. split; [lia|]. split; [reflexivity|]. split; [reflexivity|].
  apply (Evaluate_leaves_endpoint_slots (smoother 3) (junk_with 0) 0 0
           [0; 0; 1; 0; 2; 0] (replicate 6 7) 3); (reflexivity || lia).
Defined.

(** C3 fails as stated: at [INSCRIBED] the collision term adds -1, a negative
    amount, and at [UNKNOWN] it adds -9, not zero. *)
Lemma collision_term_negative_and_active_at_unknown :
  (addCollisionResidual 1 INSCRIBED CostComputations_init 0).2 = -1 /\
  (-1 <? 0) = true /\
  (addCollisionResidual 1 UNKNOWN CostComputations_init 0).2 = -9 /\
  (-9 =? 0) = false.
Proof. vm_compute. by repeat split. Qed.

Lemma field_terms_at_named_values_witness :
  (FREE =? FREE) = true /\
  (UNKNOWN =? UNKNOWN) = true /\
  (INSCRIBED <? INSCRIBED) = false /\
  (addCostResidual 1 FREE CostComputations_init 0 = 0 /\
   addCostResidual 1 UNKNOWN CostComputations_init 0 = 0 /\
   addCollisionResidual 1 INSCRIBED CostComputations_init 0 =
     ({| cost := field_penalty 1 INSCRIBED;
         gradx := gradx CostComputations_init;
         grady := grady CostComputations_init |},
      (0 + field_penalty 1 INSCRIBED)%D) /\
   addCollisionResidual 1 UNKNOWN CostComputations_init 0 =
     (if (UNKNOWN <? INSCRIBED)%D then (CostComputations_init, 0)
      else ({| cost := field_penalty 1 UNKNOWN;
               gradx := gradx CostComputations_init;
               grady := grady CostComputations_init |},
            (0 + field_penalty 1 UNKNOWN)%D))).
Proof.
  split; [reflexivity|]. split; [reflexivity|]. split; [reflexivity|].
  apply (field_terms_at_named_values 1 0 CostComputations_init); reflexivity.
Defined.

(** C4.  At a cell of value 253 the collision term caches -1, its own
    penalty under the collision weight 1.  The cost-avoidance term then adds
    that cached -1, where its own quadratic under its weight 0.2 is -0.2.
    The cache is not cleared between points either: at a later cell of value
    100 the cost-avoidance term still adds the -1 of the earlier cell, where
    its own quadratic is -4620.8. *)
Theorem cached_penalty_differs_from_recomputed :
  let self := smoother 3 in
  let cached := (addCollisionResidual (_Wcollision self) 253 CostComputations_init 0).1 in
  cost cached = -1 /\
  addCostResidual (_Wcost self) 253 cached 0 = -1 /\
  addCostResidual (_Wcost self) 253 CostComputations_init 0 = -0x1.999999999999ap-3 /\
  field_penalty (_Wcost self) 253 = -0x1.999999999999ap-3 /\
  addCostResidual (_Wcost self) 100 cached 0 = -1 /\
  field_penalty (_Wcost self) 100 = -0x1.20ccccccccccdp+12.
Proof. vm_compute. by repeat split. Qed.

(** C5.  On a 5 x 5 field that is 0 except for 12 at the cell (0, 2), the
    helper at the cell (2, 2) returns (0, 0): the sample two cells to the
    left is first stored in [left_two] and then overwritten by the sample
    two cells down, which the last test assigns to [left_two] instead of
    [down_two].  The five-point stencil sees the 12 and gives a unit vector,
    (0, 1).  With the 12 at (2, 0) instead, two cells down, the helper
    returns (0, 1), the entry having gone to the other component, where the
    stencil gives (1, 0).  At the cell (4, 2) of the last column the helper
    reads the cell (5, 2), outside the grid: fields that are 0 on the whole
    grid give (0, 0) or (0, 1) according to what [getCost] returns there. *)
Theorem costmap_gradient_misreads :
  let at_0_2 := UnconstrainedSmootherCostFunction_ctor 3 (grid5 (spike 0 2)) in
  let at_2_0 := UnconstrainedSmootherCostFunction_ctor 3 (grid5 (spike 2 0)) in
  let outside := UnconstrainedSmootherCostFunction_ctor 3 (grid5 (spike 5 2)) in
  let flat := UnconstrainedSmootherCostFunction_ctor 3 (grid5 (fun _ _ => 0)) in
  getCostmapGradient at_0_2 2 2 CostComputations_init =
    {| cost := 0; gradx := 0; grady := 0 |} /\
  five_point_gradient (grid5 (spike 0 2)) 2 2 = (0, 1) /\
  getCostmapGradient at_2_0 2 2 CostComputations_init =
    {| cost := 0; gradx := 0; grady := 1 |} /\
  five_point_gradient (grid5 (spike 2 0)) 2 2 = (1, 0) /\
  in_grid (grid5 (spike 5 2)) 5 2 = false /\
  getCostmapGradient outside 4 2 CostComputations_init =
    {| cost := 0; gradx := 0; grady := 1 |} /\
  getCostmapGradient flat 4 2 CostComputations_init =
    {| cost := 0; gradx := 0; grady := 0 |} /\
  five_point_gradient (grid5 (spike 5 2)) 4 2 = (0, 0).
Proof. vm_compute. by repeat split. Qed.

(** C6.  On the path (0,0), (0.125,0), (0.25,0), (0.25,0.125) the first
    interior point is straight: the term adds nothing and clears [valid].
    The second one turns by a right angle over a segment of length 0.125, an
    estimate above the maximum 10: the term adds a positive cost, and
    [valid], which no call sets again, is still false, so that the Jacobian
    of the same point adds nothing. *)
Theorem stale_flag_drops_gradient_of_active_term :
  let self := smoother 4 in
  let p0 := Vec 0 0 in
  let p1 := Vec 0.125 0 in
  let p2 := Vec 0.25 0 in
  let p3 := Vec 0.25 0.125 in
  let first := addMaxCurvatureResidual self (_Wcurve self) p1 p2 p0
                 (CurvatureComputations_ctor (junk_with 0)) 0 in
  let second := addMaxCurvatureResidual self (_Wcurve self) p2 p3 p1 first.1 first.2 in
  valid first.1 = false /\ first.2 = 0 /\
  degenerate p2 p3 p1 = false /\
  (_max_turning_radius self + EPSILON <? turning_rad second.1)%D = true /\
  second.2 = (_Wcurve self * ki_minus_kmax second.1 * ki_minus_kmax second.1)%D /\
  (0 <? second.2) = true /\
  valid second.1 = false /\
  addMaxCurvatureJacobian (_Wcurve self) p2 p3 p1 second.1 0 0 = (0, 0).
Proof. vm_compute. by repeat split. Qed.

(** C7 fails as stated: where the path turns back on itself, (0,0), (1,0),
    (0,0), the projection is exactly -1 and the angle stored is [acos 1 = 0],
    not [acos (-1)], so the turning-radius estimate is 0. *)
Lemma reversal_gives_zero_angle :
  let res := addMaxCurvatureResidual (smoother 3) 2 (Vec 1 0) (Vec 0 0) (Vec 0 0)
               (CurvatureComputations_ctor (junk_with 0)) 0 in
  degenerate (Vec 1 0) (Vec 0 0) (Vec 0 0) = false /\
  projection_of (Vec 1 0) (Vec 0 0) (Vec 0 0) = -1 /\
  delta_phi_i res.1 = 0 /\
  turning_rad res.1 = 0 /\
  acos (-1) = pi_1 /\
  (pi_1 =? 0) = false.
Proof. vm_compute. by repeat split. Qed.

Lemma projection_guard_sets_one_witness :
  degenerate (Vec 1 0) (Vec 0 0) (Vec 0 0) = false /\
  (((dfabs (#1 - projection_of (Vec 1 0) (Vec 0 0) (Vec 0 0)) <? EPSILON)%D = true ->
    delta_phi_i (addMaxCurvatureResidual (smoother 3) 2 (Vec 1 0) (Vec 0 0) (Vec 0 0)
                   (CurvatureComputations_ctor (junk_with 0)) 0).1 = acos (#1)%D) /\
   ((dfabs (projection_of (Vec 1 0) (Vec 0 0) (Vec 0 0) + #1) <? EPSILON)%D = true ->
    delta_phi_i (addMaxCurvatureResidual (smoother 3) 2 (Vec 1 0) (Vec 0 0) (Vec 0 0)
                   (CurvatureComputations_ctor (junk_with 0)) 0).1 = acos (#1)%D)).
Proof.
  split; [reflexivity|].
  apply (projection_guard_sets_one (smoother 3) 2 (Vec 1 0) (Vec 0 0) (Vec 0 0)
           (CurvatureComputations_ctor (junk_with 0)) 0); reflexivity.
Defined.

(** C8 fails as stated.  Where the path turns back on itself with steps of
    1/16, (0,0), (1/16,0), (0,0), the segments are not degenerate and the
    angle of the turn over the length of the step is 16 pi, above the maximum
    10 plus [EPSILON]: the term adds nothing, the guard on the projection
    having replaced -1 by 1.  At the right-angle turn of (0,0), (1/8,0),
    (1/8,1048576) the estimate 4 pi is above the maximum plus [EPSILON] and
    [w * k * k] is positive, but the cost that the smoothing term of the
    same point has left, about 2.2e17, comes back unchanged: the sum is
    rounded to the cost it started from. *)
Lemma curvature_limit_penalty_not_quadratic :
  let self := smoother 3 in
  let back := addMaxCurvatureResidual self (_Wcurve self) (Vec 0.0625 0) (Vec 0 0) (Vec 0 0)
                (CurvatureComputations_ctor (junk_with 0)) 0 in
  let r := addSmoothingResidual (_Wsmooth self) (Vec 0.125 0) (Vec 0.125 1048576)
             (Vec 0 0) 0 in
  let turn := addMaxCurvatureResidual self (_Wcurve self) (Vec 0.125 0) (Vec 0.125 1048576)
                (Vec 0 0) (CurvatureComputations_ctor (junk_with 0)) r in
  let k := ki_minus_kmax turn.1 in
  degenerate (Vec 0.0625 0) (Vec 0 0) (Vec 0 0) = false /\
  projection_of (Vec 0.0625 0) (Vec 0 0) (Vec 0 0) = -1 /\
  acos (-1) / norm (segment_in (Vec 0.0625 0) (Vec 0 0)) = 0x1.921fb54442d18p+5 /\
  (_max_turning_radius self + EPSILON <? 0x1.921fb54442d18p+5) = true /\
  back.2 = 0 /\
  degenerate (Vec 0.125 0) (Vec 0.125 1048576) (Vec 0 0) = false /\
  turning_rad turn.1 = 0x1.921fb54442d18p+3 /\
  (_max_turning_radius self + EPSILON <? turning_rad turn.1) = true /\
  (EPSILON <? k) = true /\
  (0 <? _Wcurve self * k * k) = true /\
  turn.2 = r /\
  (turn.2 - r =? 0) = true.
Proof. vm_compute. by repeat split. Qed.

Lemma curvature_limit_penalty_binary64_witness :
  let self := smoother 3 in
  let k := (turning_estimate (Vec 0.25 0) (Vec 0.25 0.125) (Vec 0.125 0)
            - _max_turning_radius self)%D in
  let k' := (turning_estimate (Vec 0.0625 0) (Vec 0.0625 0.0625) (Vec 0 0)
             - _max_turning_radius self)%D in
  let res := addMaxCurvatureResidual self 2 (Vec 0.25 0) (Vec 0.25 0.125) (Vec 0.125 0)
               (CurvatureComputations_ctor (junk_with 0)) 0 in
  let res' := addMaxCurvatureResidual self 2 (Vec 0.0625 0) (Vec 0.0625 0.0625) (Vec 0 0)
                (CurvatureComputations_ctor (junk_with 0)) 0 in
  degenerate (Vec 0.25 0) (Vec 0.25 0.125) (Vec 0.125 0) = false /\
  degenerate (Vec 0.0625 0) (Vec 0.0625 0.0625) (Vec 0 0) = false /\
  (k <=? EPSILON)%D = false /\
  (EPSILON <? k)%D = true /\
  (DBL_MIN <=? 2)%D = true /\
  (k <=? k')%D = true /\
  (k =? k')%D = false /\
  (#0 <? 2)%D = true /\
  turning_rad res.1 = turning_estimate (Vec 0.25 0) (Vec 0.25 0.125) (Vec 0.125 0) /\
  res.2 = (0 + 2 * k * k)%D /\
  (#0 <? 2 * k * k)%D = true /\
  res'.2 = (0 + 2 * k' * k')%D /\
  (2 * k * k <=? 2 * k' * k')%D = true.
Proof.
  intros self k k' res res'.
  destruct (curvature_limit_penalty_binary64 self 2
              (Vec 0.25 0) (Vec 0.25 0.125) (Vec 0.125 0)
              (CurvatureComputations_ctor (junk_with 0)) 0
              (Vec 0.0625 0) (Vec 0.0625 0.0625) (Vec 0 0)
              (CurvatureComputations_ctor (junk_with 0)) 0)
    as (Hest & _ & Hactive & Hpos & Hmono); [reflexivity|reflexivity|].
  destruct Hmono as (_ & Hres' & Hle); [reflexivity|reflexivity|reflexivity|].
  do 8 (split; [reflexivity|]).
  split; [exact Hest|]. split; [apply Hactive; reflexivity|].
  split; [apply Hpos; reflexivity|]. split; [exact Hres'|exact Hle].
Defined.

(** C9.  On the path (0,0), (0,0), (1,0), whose interior point coincides with
    the first point, the curvature-limit term returns at its first test, adds
    nothing and leaves [turning_rad] as the storage held it.  The
    curvature-change term reads that member: with NaN there, the cost and
    the two gradient entries of the point are NaN; with 1e200 there, the
    cost is infinite. *)
Theorem degenerate_path_reads_uninitialised_estimate :
  let self := smoother 3 in
  let path := [0; 0; 0; 0; 1; 0] in
  let run t := Evaluate self (junk_with t) 0 0 path (Some (replicate 6 0)) in
  degenerate (Vec 0 0) (Vec 1 0) (Vec 0 0) = true /\
  (addMaxCurvatureResidual self (_Wcurve self) (Vec 0 0) (Vec 1 0) (Vec 0 0)
     (CurvatureComputations_ctor (junk_with nan)) 0).2 = 0 /\
  returned (run nan) = true /\
  disnan (out_cost (run nan)) = true /\
  out_gradient (run nan) = Some [0; 0; nan; nan; 0; 0] /\
  disinf (out_cost (run 1e200)) = true /\
  out_cost (run 0) = 200000.
Proof. vm_compute. by repeat split. Qed.

End Runs.

(** * Further properties *)

(** Case analysis on the pairs that the Jacobians in the goal return; for the
    two field terms with the fact that they keep the cached [cost]. *)
Ltac split_jacobians :=
  repeat match goal with
  | |- context [addSmoothingJacobian ?a ?b ?c ?d ?e ?f] =>
      destruct (addSmoothingJacobian a b c d e f)
  | |- context [addMaxCurvatureJacobian ?a ?b ?c ?d ?e ?f ?g] =>
      destruct (addMaxCurvatureJacobian a b c d e f g)
  | |- context [addTurningRateChangeJacobian ?a ?b ?c ?d ?e] =>
      destruct (addTurningRateChangeJacobian a b c d e)
  | |- context [addCostJacobian ?a ?b ?c ?d ?e
                  (addCollisionJacobian ?a' ?b' ?c' ?d' ?e' ?f' ?g' ?h').1 ?g ?h] =>
      let H := fresh in
      pose proof (addCollisionJacobian_cost a' b' c' d' e' f' g' h') as H;
      destruct (addCollisionJacobian a' b' c' d' e' f' g' h') as [? [? ?]]; simpl in H
  | |- context [addCollisionJacobian ?a ?b ?c ?d ?e ?f ?g ?h] =>
      let H := fresh in
      pose proof (addCollisionJacobian_cost a b c d e f g h) as H;
      destruct (addCollisionJacobian a b c d e f g h) as [? [? ?]]; simpl in H
  | |- context [addCostJacobian ?a ?b ?c ?d ?e ?f ?g ?h] =>
      let H := fresh in
      pose proof (addCostJacobian_cost a b c d e f g h) as H;
      destruct (addCostJacobian a b c d e f g h) as [? [? ?]]; simpl in H
  end.

(** ** The sweep over the points *)

Section Sweep.
Context {D : Type} {dbl : Double D} {libm : Libm D} {values : CostValues (D:=D)}.
Local Open Scope dbl_scope.

Implicit Types (self : UnconstrainedSmootherCostFunction (D:=D)).
Implicit Types (s : Locals (D:=D)) (g : list D) (p : CostComputations (D:=D)).

(** The locals on entry to iteration [k] of the loop. *)
Definition sweep self (parameters : list D) s (k : nat) : Locals :=
  fold_left (Evaluate_body self parameters) (seq 0 k) s.

Lemma sweep_S self parameters s k :
  sweep self parameters s (S k) = Evaluate_body self parameters (sweep self parameters s k) k.
Proof. unfold sweep. by rewrite seq_S, fold_left_app. Qed.

Lemma fold_body_from self parameters s (a n : nat) :
  fold_left (Evaluate_body self parameters) (seq a n) (sweep self parameters s a) =
  sweep self parameters s (a + n).
Proof.
  unfold sweep. by rewrite seq_app, fold_left_app.
Qed.

(** The index [i] is one of an interior point. *)
Definition interior self (i : nat) : Prop :=
  (1 <= i < NumParameters self / 2 - 1)%nat.

Lemma Evaluate_body_boundary self parameters s i :
  ~ interior self i -> Evaluate_body self parameters s i = s.
Proof.
  intros Hi. unfold Evaluate_body.
  destruct (_ || _) eqn:Hb; [done|].
  apply orb_false_iff in Hb as [Hb1 Hb2].
  apply Nat.ltb_ge in Hb1. apply Nat.leb_gt in Hb2.
  exfalso. apply Hi. unfold interior. lia.
Qed.

Lemma fold_body_boundary self parameters (l : list nat) s :
  Forall (fun i => ~ interior self i) l ->
  fold_left (Evaluate_body self parameters) l s = s.
Proof.
  revert s. induction l as [|i l IH]; intros s Hl; simpl; [done|].
  inversion Hl; subst. rewrite Evaluate_body_boundary by done. by apply IH.
Qed.

(** X1.  With at most two points ([NumParameters() / 2 <= 2]) the loop has no
    interior index: [Evaluate] returns true, stores the cost 0 and leaves the
    gradient buffer, if there is one, exactly as it was. *)
Theorem Evaluate_without_interior_points self junk mx0 my0 (parameters : list D)
    (g : option (list D)) :
  (NumParameters self / 2 <= 2)%nat ->
  Evaluate self junk mx0 my0 parameters g =
    {| returned := true; out_cost := #0; out_gradient := g |}.
Proof.
  intros HN. unfold Evaluate, Evaluate_loop.
  rewrite fold_body_boundary; [done|].
  apply Forall_forall. intros i _. unfold interior. lia.
Qed.

(** What a pass for an interior point stores: the two accumulators, in the
    two slots of the point. *)
Lemma Evaluate_body_stores self parameters s i g :
  interior self i ->
  gradient s = Some g ->
  let s' := Evaluate_body self parameters s i in
  gradient s' =
    Some (<[(2 * i + 1)%nat := grad_y_raw s']>
            (<[(2 * i)%nat := grad_x_raw s']>
               (<[(2 * i + 1)%nat := #0]> (<[(2 * i)%nat := #0]> g)))).
Proof.
  intros Hi Hg. unfold Evaluate_body.
  destruct (_ || _) eqn:Hb.
  { exfalso. apply orb_true_iff in Hb as [Hb|Hb];
      [apply Nat.ltb_lt in Hb | apply Nat.leb_le in Hb]; unfold interior in Hi; lia. }
  rewrite Hg.
  destruct (addMaxCurvatureResidual _ _ _ _ _ _ _) as [cp r].
  destruct (match worldToMap _ _ _ with Some _ => _ | None => _ end)
    as [[[[vc mx'] my'] cc] [kp r']].
  destruct (addSmoothingJacobian _ _ _ _ _ _) as [a0 a1].
  destruct (addMaxCurvatureJacobian _ _ _ _ _ _ _) as [b0 b1].
  destruct (addTurningRateChangeJacobian _ _ _ _ _) as [d0 d1].
  by destruct (if vc then _ else _) as [kp' [j0 j1]].
Qed.

(** A pass at index [j] changes no slot but those of point [j]. *)
Lemma Evaluate_body_other_slots self parameters s j g :
  gradient s = Some g ->
  exists g', gradient (Evaluate_body self parameters s j) = Some g' /\
             length g' = length g /\
             forall k : nat, k <> (2 * j)%nat -> k <> (2 * j + 1)%nat -> g' !! k = g !! k.
Proof.
  intros Hg.
  destruct (decide (interior self j)) as [Hj|Hj].
  - rewrite (Evaluate_body_stores self parameters s j g Hj Hg).
    eexists; split; [done|]. split; [by rewrite !length_insert|].
    intros k Hk1 Hk2. by rewrite !list_lookup_insert_ne.
  - rewrite Evaluate_body_boundary by done. by exists g.
Qed.

Lemma fold_body_other_slots self parameters (l : list nat) s g (k : nat) :
  gradient s = Some g ->
  Forall (fun j => k <> (2 * j)%nat /\ k <> (2 * j + 1)%nat) l ->
  exists g', gradient (fold_left (Evaluate_body self parameters) l s) = Some g' /\
             length g' = length g /\ g' !! k = g !! k.
Proof.
  revert s g. induction l as [|j l IH]; intros s g Hg Hl; simpl; [by exists g|].
  inversion Hl as [|? ? [Hk1 Hk2] Hl']; subst.
  destruct (Evaluate_body_other_slots self parameters s j g Hg) as (g1 & Hg1 & Hlen1 & Hs1).
  destruct (IH _ _ Hg1 Hl') as (g2 & Hg2 & Hlen2 & Hs2).
  exists g2. split; [done|]. split; [congruence|]. rewrite Hs2. by apply Hs1.
Qed.

Lemma sweep_gradient_length self parameters s g k :
  gradient s = Some g ->
  exists g', gradient (sweep self parameters s k) = Some g' /\ length g' = length g.
Proof.
  intros Hg. induction k as [|k (g1 & Hg1 & Hl1)]; [by exists g|].
  rewrite sweep_S.
  destruct (Evaluate_body_other_slots self parameters _ k g1 Hg1) as (g2 & Hg2 & Hl2 & _).
  exists g2. split; [done|congruence].
Qed.

(** The slots of an interior point, after the call. *)
Lemma Evaluate_interior_slots self junk mx0 my0 (parameters g : list D) (i : nat) :
  interior self i ->
  length g = NumParameters self ->
  let s := sweep self parameters (Locals_init junk mx0 my0 (Some g)) (S i) in
  exists g',
    out_gradient (Evaluate self junk mx0 my0 parameters (Some g)) = Some g' /\
    g' !! (2 * i)%nat = Some (grad_x_raw s) /\
    g' !! (2 * i + 1)%nat = Some (grad_y_raw s).
Proof.
  intros Hi Hlen s. unfold Evaluate, Evaluate_loop. cbn [out_gradient].
  set (s0 := Locals_init junk mx0 my0 (Some g)).
  assert (HN : (NumParameters self / 2 = S i + (NumParameters self / 2 - S i))%nat)
    by (unfold interior in Hi; lia).
  rewrite HN, seq_app, fold_left_app. fold (sweep self parameters s0 (S i)). fold s.
  destruct (sweep_gradient_length self parameters s0 g i eq_refl) as (gi & Hgi & Hleni).
  pose proof (Evaluate_body_stores self parameters _ i gi Hi Hgi) as Hst.
  cbv zeta in Hst. rewrite <- sweep_S in Hst. fold s0 s in Hst.
  assert (Hdiv : (2 * (NumParameters self / 2) <= NumParameters self)%nat)
    by (apply Nat.Div0.mul_div_le).
  assert (Hlt : (2 * i + 1 < length gi)%nat) by (unfold interior in Hi; lia).
  match type of Hst with _ = Some ?x => set (gs := x) in * end.
  assert (Hx : gs !! (2 * i)%nat = Some (grad_x_raw s)).
  { unfold gs. rewrite list_lookup_insert_ne by lia.
    apply list_lookup_insert_eq. rewrite !length_insert. lia. }
  assert (Hy : gs !! (2 * i + 1)%nat = Some (grad_y_raw s)).
  { unfold gs. apply list_lookup_insert_eq. rewrite !length_insert. lia. }
  destruct (fold_body_other_slots self parameters
              (seq (0 + S i) (NumParameters self / 2 - S i)) s gs (2 * i) Hst)
    as (g1 & Hg1 & _ & Hs1).
  { apply Forall_forall. intros j Hj%elem_of_seq. lia. }
  destruct (fold_body_other_slots self parameters
              (seq (0 + S i) (NumParameters self / 2 - S i)) s gs (2 * i + 1) Hst)
    as (g2 & Hg2 & _ & Hs2).
  { apply Forall_forall. intros j Hj%elem_of_seq. lia. }
  exists g1. split; [done|]. split; [congruence|].
  rewrite Hg1 in Hg2. injection Hg2 as ->. congruence.
Qed.

(** Everything in the locals but the contents of the gradient buffer. *)
Definition registers s :=
  (cost_raw s, grad_x_raw s, grad_y_raw s, mx s, my s, valid_coords s,
   costmap_cost s, ki_m1 s, curvature_params s, cost_params s,
   match gradient s with Some _ => true | None => false end).

Lemma Evaluate_body_registers self parameters s s' i :
  registers s = registers s' ->
  registers (Evaluate_body self parameters s i) =
  registers (Evaluate_body self parameters s' i).
Proof.
  destruct s as [r gx gy x y vc cc k cp kp g], s' as [r' gx' gy' x' y' vc' cc' k' cp' kp' g'].
  unfold registers. simpl. intros [= -> -> -> -> -> -> -> -> -> -> Hg].
  unfold Evaluate_body. simpl.
  case (_ || _); simpl; [by rewrite Hg|].
  destruct (addMaxCurvatureResidual _ _ _ _ _ _ _) as [cp1 r1].
  destruct (match worldToMap _ _ _ with Some _ => _ | None => _ end)
    as [[[[vc1 mx1] my1] cc1] [kp1 r2]].
  destruct g as [g|], g' as [g'|]; try discriminate; [|done].
  repeat match goal with
  | |- context [addSmoothingJacobian ?a ?b ?c ?d ?e ?f] =>
      destruct (addSmoothingJacobian a b c d e f)
  | |- context [addMaxCurvatureJacobian ?a ?b ?c ?d ?e ?f ?g] =>
      destruct (addMaxCurvatureJacobian a b c d e f g)
  | |- context [addTurningRateChangeJacobian ?a ?b ?c ?d ?e] =>
      destruct (addTurningRateChangeJacobian a b c d e)
  end.
  by destruct (if vc1 then _ else _) as [kp2 [j0 j1]].
Qed.

Lemma sweep_registers self parameters s s' k :
  registers s = registers s' ->
  registers (sweep self parameters s k) = registers (sweep self parameters s' k).
Proof.
  intros Hs. induction k as [|k IH]; [done|].
  rewrite !sweep_S. by apply Evaluate_body_registers.
Qed.

(** X2.  The two gradient entries that [Evaluate] stores for an interior
    point do not depend on what the caller's buffer held: two calls that
    differ only in the contents of the buffer store the same two values. *)
Theorem interior_gradient_ignores_buffer self junk mx0 my0
    (parameters g1 g2 : list D) (i : nat) :
  interior self i ->
  length g1 = NumParameters self ->
  length g2 = NumParameters self ->
  exists o1 o2 (vx vy : D),
    out_gradient (Evaluate self junk mx0 my0 parameters (Some g1)) = Some o1 /\
    out_gradient (Evaluate self junk mx0 my0 parameters (Some g2)) = Some o2 /\
    o1 !! (2 * i)%nat = Some vx /\ o2 !! (2 * i)%nat = Some vx /\
    o1 !! (2 * i + 1)%nat = Some vy /\ o2 !! (2 * i + 1)%nat = Some vy.
Proof.
  intros Hi H1 H2.
  destruct (Evaluate_interior_slots self junk mx0 my0 parameters g1 i Hi H1)
    as (o1 & Ho1 & Hx1 & Hy1).
  destruct (Evaluate_interior_slots self junk mx0 my0 parameters g2 i Hi H2)
    as (o2 & Ho2 & Hx2 & Hy2).
  pose proof (sweep_registers self parameters
                (Locals_init junk mx0 my0 (Some g1))
                (Locals_init junk mx0 my0 (Some g2)) (S i) eq_refl) as Hreg.
  unfold registers in Hreg. injection Hreg as _ Hgx Hgy _ _ _ _ _ _ _ _.
  exists o1, o2. eexists _, _. repeat split; try eassumption.
  - by rewrite Hx2, Hgx.
  - by rewrite Hy2, Hgy.
Qed.

(** The object [self] with another cost field behind [_costmap]. *)
Definition with_costmap self (costmap : MinimalCostmap (D:=D)) :
  UnconstrainedSmootherCostFunction :=
  {| _num_params := _num_params self;
     _Wsmooth := _Wsmooth self;
     _Wcurve := _Wcurve self;
     _Wcollision := _Wcollision self;
     _Wcost := _Wcost self;
     _Wchange := _Wchange self;
     _max_turning_radius := _max_turning_radius self;
     _costmap := costmap |}.

(** No interior point of the path falls on the cost field: [worldToMap] fails
    wherever [Evaluate] calls it. *)
Definition off_the_map self (costmap : MinimalCostmap (D:=D)) (parameters : list D) : Prop :=
  forall i : nat, interior self i ->
    worldToMap costmap (rd parameters (2 * i)) (rd parameters (2 * i + 1)) = None.

Lemma Evaluate_body_off_map self costmap parameters s i :
  off_the_map self (_costmap self) parameters ->
  off_the_map self costmap parameters ->
  Evaluate_body (with_costmap self costmap) parameters s i =
  Evaluate_body self parameters s i.
Proof.
  intros Hs Hc. destruct (decide (interior self i)) as [Hi|Hi].
  - unfold Evaluate_body. cbn [with_costmap _costmap c0 c1].
    rewrite (Hs i Hi), (Hc i Hi). reflexivity.
  - rewrite (Evaluate_body_boundary self) by done.
    by apply (Evaluate_body_boundary (with_costmap self costmap)).
Qed.

(** X3.  When [worldToMap] fails for every interior point of the path, the
    only points for which [Evaluate] calls it, the outputs of [Evaluate] do
    not depend on the cost field: replacing it by any other field on which
    no interior point falls either changes neither the cost nor the
    gradient, wherever the end points and the world origin lie. *)
Theorem Evaluate_off_map_ignores_field self costmap junk mx0 my0
    (parameters : list D) (g : option (list D)) :
  off_the_map self (_costmap self) parameters ->
  off_the_map self costmap parameters ->
  Evaluate (with_costmap self costmap) junk mx0 my0 parameters g =
  Evaluate self junk mx0 my0 parameters g.
Proof.
  intros Hs Hc. unfold Evaluate, Evaluate_loop. simpl NumParameters.
  change (NumParameters self) with (_num_params self).
  generalize (Locals_init junk mx0 my0 g). generalize (seq 0 (_num_params self / 2)).
  intros l. induction l as [|i l IH]; intros s; simpl; [done|].
  rewrite Evaluate_body_off_map by done.
  specialize (IH (Evaluate_body self parameters s i)).
  injection IH as H1 H2. by rewrite H1, H2.
Qed.

Lemma getCostmapGradient_again self mx my p :
  getCostmapGradient self mx my (getCostmapGradient self mx my p) =
  getCostmapGradient self mx my p.
Proof. unfold getCostmapGradient. by case (_ <? _). Qed.

(** X4.  At a cell whose value is at or above [INSCRIBED] and is neither [FREE]
    nor [UNKNOWN], the collision Jacobian followed by the cost-avoidance
    Jacobian leaves the direction [getCostmapGradient] computes for that cell
    in the cache, and both add their own prefix [-2 * w * (v -
    MAX_NON_OBSTACLE)] times that one direction, whether the second reuses
    the cached direction or, the cached one being (0, 0), computes it
    again. *)
Theorem field_jacobians_share_direction self (w1 w2 : D) mx my (v : D) p (j0 j1 : D) :
  (v <? INSCRIBED) = false ->
  (v =? FREE) || (v =? UNKNOWN) = false ->
  let d := getCostmapGradient self mx my p in
  let c1 := #(-2) * w1 * (v - MAX_NON_OBSTACLE) in
  let c2 := #(-2) * w2 * (v - MAX_NON_OBSTACLE) in
  let first := addCollisionJacobian self w1 mx my v p j0 j1 in
  addCostJacobian self w2 mx my v first.1 first.2.1 first.2.2 =
    (d, (j0 + c1 * gradx d + c2 * gradx d, j1 + c1 * grady d + c2 * grady d)).
Proof.
  intros Hc Hf. unfold addCollisionJacobian, addCostJacobian.
  rewrite Hc, Hf. cbv zeta. simpl.
  case (_ && _); [by rewrite getCostmapGradient_again | done].
Qed.

(** The five Jacobians of point [i], in the order of the source, applied to
    the accumulators [(j0, j1)].  The caches they read are the ones the
    residuals of the same point leave, starting from the locals [s]. *)
Definition jacobians_on self (parameters : list D) s (i : nat) (j0 j1 : D) : D * D :=
  let xi := Vec (rd parameters (2 * i)) (rd parameters (2 * i + 1)) in
  let xi_p1 := Vec (rd parameters (2 * i + 2)) (rd parameters (2 * i + 1 + 2)) in
  let xi_m1 := Vec (rd parameters (2 * i - 2)) (rd parameters (2 * i + 1 - 2)) in
  let r := addSmoothingResidual (_Wsmooth self) xi xi_p1 xi_m1 (cost_raw s) in
  let '(cp, r) :=
    addMaxCurvatureResidual self (_Wcurve self) xi xi_p1 xi_m1 (curvature_params s) r in
  let r := addTurningRateChangeResidual (_Wchange self) (turning_rad cp) (ki_m1 s) r in
  let '(j0, j1) := addSmoothingJacobian (_Wsmooth self) xi xi_p1 xi_m1 j0 j1 in
  let '(j0, j1) := addMaxCurvatureJacobian (_Wcurve self) xi xi_p1 xi_m1 cp j0 j1 in
  let '(j0, j1) :=
    addTurningRateChangeJacobian (_Wchange self) (turning_rad cp) (ki_m1 s) j0 j1 in
  match worldToMap (_costmap self) (c0 xi) (c1 xi) with
  | Some (mx', my') =>
      let cc := getCost (_costmap self) mx' my' in
      let '(kp, r) := addCollisionResidual (_Wcollision self) cc (cost_params s) r in
      let '(kp, (j0, j1)) :=
        addCollisionJacobian self (_Wcollision self) mx' my' cc kp j0 j1 in
      (addCostJacobian self (_Wcost self) mx' my' cc kp j0 j1).2
  | None => (j0, j1)
  end.

Lemma Evaluate_body_jacobians self parameters s (i : nat) g :
  interior self i ->
  gradient s = Some g ->
  let s' := Evaluate_body self parameters s i in
  (grad_x_raw s', grad_y_raw s') =
  jacobians_on self parameters s i (grad_x_raw s) (grad_y_raw s).
Proof.
  intros Hi Hg. unfold Evaluate_body, jacobians_on.
  destruct (_ || _) eqn:Hb.
  { exfalso. apply orb_true_iff in Hb as [Hb|Hb];
      [apply Nat.ltb_lt in Hb | apply Nat.leb_le in Hb]; unfold interior in Hi; lia. }
  rewrite Hg. cbv zeta. cbn [c0 c1].
  destruct (addMaxCurvatureResidual _ _ _ _ _ _ _) as [cp r].
  destruct (addSmoothingJacobian _ _ _ _ _ _) as [a0 a1].
  destruct (addMaxCurvatureJacobian _ _ _ _ _ _ _) as [b0 b1].
  destruct (addTurningRateChangeJacobian _ _ _ _ _) as [d0 d1].
  destruct (worldToMap _ _ _) as [[mx' my']|]; [|done].
  destruct (addCollisionResidual _ _ _ _) as [kp r'].
  destruct (addCollisionJacobian _ _ _ _ _ _ _ _) as [kp' [e0 e1]].
  by destruct (addCostJacobian _ _ _ _ _ _ _ _) as [kp'' [f0 f1]].
Qed.

(** X14.  The accumulators are never reset between two points.  For two
    consecutive interior points [i] and [i + 1], the entries [Evaluate]
    stores for point [i + 1] are the result of the five Jacobians of point
    [i + 1] applied to the entries stored for point [i], not to zero. *)
Theorem gradient_slots_carry_over self junk mx0 my0 (parameters g : list D) (i : nat) :
  interior self i ->
  interior self (S i) ->
  length g = NumParameters self ->
  let s := sweep self parameters (Locals_init junk mx0 my0 (Some g)) (S i) in
  exists o (vx vy : D),
    out_gradient (Evaluate self junk mx0 my0 parameters (Some g)) = Some o /\
    o !! (2 * i)%nat = Some vx /\
    o !! (2 * i + 1)%nat = Some vy /\
    o !! (2 * S i)%nat = Some (jacobians_on self parameters s (S i) vx vy).1 /\
    o !! (2 * S i + 1)%nat = Some (jacobians_on self parameters s (S i) vx vy).2.
Proof.
  intros Hi HSi Hlen s.
  destruct (Evaluate_interior_slots self junk mx0 my0 parameters g i Hi Hlen)
    as (o & Ho & Hx & Hy).
  destruct (Evaluate_interior_slots self junk mx0 my0 parameters g (S i) HSi Hlen)
    as (o' & Ho' & Hx' & Hy').
  rewrite Ho in Ho'. injection Ho' as <-.
  cbv zeta in Hx, Hy, Hx', Hy'. fold s in Hx, Hy.
  rewrite sweep_S in Hx', Hy'. fold s in Hx', Hy'.
  destruct (sweep_gradient_length self parameters (Locals_init junk mx0 my0 (Some g)) g (S i)
              eq_refl) as (gs & Hgs & _).
  fold s in Hgs.
  pose proof (Evaluate_body_jacobians self parameters s (S i) gs HSi Hgs) as Hj.
  cbv zeta in Hj.
  exists o, (grad_x_raw s), (grad_y_raw s).
  rewrite <- Hj. by repeat split.
Qed.

End Sweep.

(** ** Reads, guards and the helper away from the border *)

Section Guards.
Context {D : Type} {dbl : Double D} {libm : Libm D} {values : CostValues (D:=D)}.
Local Open Scope dbl_scope.

Implicit Types (self : UnconstrainedSmootherCostFunction (D:=D)).
Implicit Types (s : Locals (D:=D)) (g : list D) (p : CostComputations (D:=D)).
Implicit Types (pt pt_p pt_m : Vector2d (D:=D)) (cp : CurvatureComputations (D:=D)).

(** *** The reads of [parameters] *)

Lemma Evaluate_body_reads self (ps ps' : list D) s (i : nat) :
  (forall k : nat, (k < NumParameters self)%nat -> rd ps k = rd ps' k) ->
  Evaluate_body self ps s i = Evaluate_body self ps' s i.
Proof.
  intros H. destruct (decide (interior self i)) as [Hi|Hi].
  - pose proof (Nat.Div0.mul_div_le (NumParameters self) 2) as Hdiv.
    unfold interior in Hi. unfold Evaluate_body. cbv zeta.
    rewrite (H (2 * i)%nat), (H (2 * i + 1)%nat), (H (2 * i + 2)%nat),
      (H (2 * i + 1 + 2)%nat), (H (2 * i - 2)%nat), (H (2 * i + 1 - 2)%nat) by lia.
    reflexivity.
  - by rewrite !Evaluate_body_boundary.
Qed.

(** X17.  [Evaluate] reads [parameters] at the indices below [NumParameters()]
    only: two arrays that agree there give the same outputs. *)
Theorem Evaluate_reads_in_range self junk mx0 my0 (ps ps' : list D) (g : option (list D)) :
  (forall k : nat, (k < NumParameters self)%nat -> rd ps k = rd ps' k) ->
  Evaluate self junk mx0 my0 ps g = Evaluate self junk mx0 my0 ps' g.
Proof.
  intros H. unfold Evaluate, Evaluate_loop.
  generalize (Locals_init junk mx0 my0 g). generalize (seq 0 (NumParameters self / 2)).
  intros l. induction l as [|i l IH]; intros s; simpl; [done|].
  rewrite (Evaluate_body_reads self ps ps' s i H).
  specialize (IH (Evaluate_body self ps' s i)).
  injection IH as H1 H2. by rewrite H1, H2.
Qed.

(** *** The flag [valid] along the sweep *)

(** Point [j] of the path. *)
Definition point (parameters : list D) (j : nat) : Vector2d :=
  Vec (rd parameters (2 * j)) (rd parameters (2 * j + 1)).

(** The curvature-limit term is active at point [j]: the segments are not
    degenerate and the excess of the estimate is above [EPSILON]. *)
Definition active self (parameters : list D) (j : nat) : bool :=
  negb (degenerate (point parameters j) (point parameters (j + 1)) (point parameters (j - 1)))
  && negb (turning_estimate (point parameters j) (point parameters (j + 1))
             (point parameters (j - 1)) - _max_turning_radius self <=? EPSILON).

Lemma addMaxCurvatureResidual_valid self w pt pt_p pt_m cp r :
  valid (addMaxCurvatureResidual self w pt pt_p pt_m cp r).1 =
  negb (degenerate pt pt_p pt_m)
  && negb (turning_estimate pt pt_p pt_m - _max_turning_radius self <=? EPSILON)
  && valid cp.
Proof.
  destruct (degenerate pt pt_p pt_m) eqn:Hd.
  - by destruct (addMaxCurvatureResidual_degenerate self w pt pt_p pt_m cp r Hd) as (-> & _).
  - destruct (addMaxCurvatureResidual_regular self w pt pt_p pt_m cp r Hd)
      as (_ & _ & _ & _ & Hv).
    destruct (addMaxCurvatureResidual_estimate self w pt pt_p pt_m cp r Hd)
      as (_ & Hk & _).
    cbv zeta in Hv, Hk. rewrite Hv, Hk. cbn [negb andb]. by case (_ <=? _).
Qed.

Lemma Evaluate_body_valid self parameters s (i : nat) :
  interior self i ->
  valid (curvature_params (Evaluate_body self parameters s i)) =
  active self parameters i && valid (curvature_params s).
Proof.
  intros Hi. unfold active, point.
  replace (2 * (i + 1) + 1)%nat with (2 * i + 1 + 2)%nat by lia.
  replace (2 * (i + 1))%nat with (2 * i + 2)%nat by lia.
  replace (2 * (i - 1) + 1)%nat with (2 * i + 1 - 2)%nat by (unfold interior in Hi; lia).
  replace (2 * (i - 1))%nat with (2 * i - 2)%nat by lia.
  rewrite <- (addMaxCurvatureResidual_valid self (_Wcurve self) _ _ _ (curvature_params s)
                (addSmoothingResidual (_Wsmooth self)
                   (Vec (rd parameters (2 * i)) (rd parameters (2 * i + 1)))
                   (Vec (rd parameters (2 * i + 2)) (rd parameters (2 * i + 1 + 2)))
                   (Vec (rd parameters (2 * i - 2)) (rd parameters (2 * i + 1 - 2)))
                   (cost_raw s))).
  unfold Evaluate_body.
  destruct (_ || _) eqn:Hb.
  { exfalso. apply orb_true_iff in Hb as [Hb|Hb];
      [apply Nat.ltb_lt in Hb | apply Nat.leb_le in Hb]; unfold interior in Hi; lia. }
  cbv zeta.
  destruct (addMaxCurvatureResidual _ _ _ _ _ _ _) as [cp r].
  destruct (match worldToMap _ _ _ with Some _ => _ | None => _ end)
    as [[[[vc mx'] my'] cc] [kp r']].
  by destruct (match gradient s with Some _ => _ | None => _ end) as [[kp' [j0 j1]] g'].
Qed.

Lemma sweep_valid self parameters s (i j : nat) :
  interior self j -> (j <= i)%nat ->
  active self parameters j = false ->
  valid (curvature_params (sweep self parameters s (S i))) = false.
Proof.
  intros Hj Hji Ha. induction i as [|i IH].
  - unfold interior in Hj. lia.
  - rewrite sweep_S. destruct (decide (j = S i)) as [->|Hne].
    + rewrite Evaluate_body_valid by done. by rewrite Ha.
    + specialize (IH ltac:(lia)).
      destruct (decide (interior self (S i))) as [Hi|Hi].
      * rewrite Evaluate_body_valid by done. rewrite IH. by rewrite andb_false_r.
      * by rewrite Evaluate_body_boundary.
Qed.

(** X16.  The flag [valid] is set by the constructor only.  As soon as one
    interior point [j] is degenerate or within the limit, the curvature
    Jacobian adds nothing at that point and at every later point [i] of the
    call, whatever these points are. *)
Theorem curvature_jacobian_silenced self junk mx0 my0 (parameters : list D)
    (g : option (list D)) (i j : nat) (w : D) pt pt_p pt_m (j0 j1 : D) :
  interior self j -> (j <= i)%nat ->
  active self parameters j = false ->
  addMaxCurvatureJacobian w pt pt_p pt_m
    (curvature_params (sweep self parameters (Locals_init junk mx0 my0 g) (S i))) j0 j1 =
  (j0, j1).
Proof.
  intros Hj Hji Ha. apply addMaxCurvatureJacobian_invalid. by eapply sweep_valid.
Qed.

(** X15.  With a segment shorter than [EPSILON], or of a length that is NaN
    or infinite, the curvature-limit term adds nothing and clears [valid];
    the angle, the estimate and the excess keep the values of the previous
    call. *)
Theorem degenerate_segments_keep_estimate self w pt pt_p pt_m cp r :
  degenerate pt pt_p pt_m = true ->
  let res := addMaxCurvatureResidual self w pt pt_p pt_m cp r in
  res.2 = r /\
  valid res.1 = false /\
  delta_phi_i res.1 = delta_phi_i cp /\
  turning_rad res.1 = turning_rad cp /\
  ki_minus_kmax res.1 = ki_minus_kmax cp.
Proof.
  unfold degenerate, segment_in, segment_out, addMaxCurvatureResidual.
  by intros ->.
Qed.

(** *** The costmap gradient helper away from the border *)

(** The last step of the helper: the estimate divided by its length, or as
    it is when the length is not above [EPSILON]. *)
Definition normalised_or_raw (gx gy : D) p : CostComputations :=
  if hypot gx gy >? EPSILON
  then {| cost := cost p; gradx := gx / hypot gx gy; grady := gy / hypot gx gy |}
  else {| cost := cost p; gradx := gx; grady := gy |}.

(** X9.  At a cell at least two cells away from every border, the first
    component of the estimate is the five-point formula over the four
    neighbours along [my] with 0 in the place of the sample two cells down,
    and the second is the formula over the neighbours along [mx] with the
    sample two cells down in the place of the one two cells to the left.
    The helper keeps [cost], normalises the estimate when its length is above
    [EPSILON] and leaves it as it is otherwise. *)
Theorem getCostmapGradient_inside self (mx my : Z) p :
  let cm := _costmap self in
  (2 <= mx)%Z -> (mx + 2 < sizeX cm)%Z -> (sizeX cm <= 2 ^ 32)%Z ->
  (2 <= my)%Z -> (my + 2 < sizeY cm)%Z -> (sizeY cm <= 2 ^ 32)%Z ->
  getCostmapGradient self mx my p =
    normalised_or_raw
      (five_point #0 (getCost cm mx (my - 1)) (getCost cm mx (my + 1))
                  (getCost cm mx (my + 2)))
      (five_point (getCost cm mx (my - 2)) (getCost cm (mx - 1) my)
                  (getCost cm (mx + 1) my) (getCost cm (mx + 2) my))
      p.
Proof.
  intros cm Hx0 Hx1 Hx2 Hy0 Hy1 Hy2.
  unfold getCostmapGradient, normalised_or_raw, five_point. fold cm.
  unfold wrap32.
  rewrite !Z.mod_small by lia.
  rewrite !(proj2 (Z.ltb_lt _ _)) by lia. reflexivity.
Qed.

End Guards.

(** ** Instances of the further properties *)

Section MoreRuns.
Local Open Scope float_scope.
#[local] Existing Instances table_libm nav2_values.

Lemma Evaluate_without_interior_points_witness :
  (NumParameters (smoother 2) / 2 <= 2)%nat /\
  Evaluate (smoother 2) (junk_with 0) 0 0 [0; 0; 1; 0] (Some [7; 7; 7; 7]) =
    {| returned := true; out_cost := (#0)%D; out_gradient := Some [7; 7; 7; 7] |}.
Proof.
  split; [vm_compute; lia|].
  apply (Evaluate_without_interior_points (smoother 2) (junk_with 0) 0 0
           [0; 0; 1; 0] (Some [7; 7; 7; 7])).
  vm_compute; lia.
Defined.

Lemma interior_smoother_3 : interior (smoother 3) 1.
Proof. unfold interior. vm_compute. lia. Qed.

Lemma interior_gradient_ignores_buffer_witness :
  interior (smoother 3) 1 /\
  length (replicate 6 0) = NumParameters (smoother 3) /\
  length (replicate 6 7) = NumParameters (smoother 3) /\
  exists o1 o2 (vx vy : float),
    out_gradient (Evaluate (smoother 3) (junk_with 0) 0 0 [0; 0; 1; 0; 3; 0]
                    (Some (replicate 6 0))) = Some o1 /\
    out_gradient (Evaluate (smoother 3) (junk_with 0) 0 0 [0; 0; 1; 0; 3; 0]
                    (Some (replicate 6 7))) = Some o2 /\
    o1 !! (2 * 1)%nat = Some vx /\ o2 !! (2 * 1)%nat = Some vx /\
    o1 !! (2 * 1 + 1)%nat = Some vy /\ o2 !! (2 * 1 + 1)%nat = Some vy.
Proof.
  split; [exact interior_smoother_3|]. split; [reflexivity|]. split; [reflexivity|].
  apply (interior_gradient_ignores_buffer (smoother 3) (junk_with 0) 0 0
           [0; 0; 1; 0; 3; 0] (replicate 6 0) (replicate 6 7) 1);
    [exact interior_smoother_3 | reflexivity | reflexivity].
Defined.

(** A cost field on which the world origin and every point with [x <> 1]
    fall, all on one cell of value 254. *)
Definition all_but_one : MinimalCostmap (D:=float) :=
  {| worldToMap := fun x _ => if PrimFloat.eqb x 1 then None else Some (0%Z, 0%Z);
     getCost := fun _ _ => 254;
     sizeX := 1;
     sizeY := 1 |}.

Lemma off_the_map_smoother_3 (costmap : MinimalCostmap (D:=float)) (x0 y0 x2 y2 : float) :
  off_the_map (smoother 3) costmap [x0; y0; 1; 0; x2; y2] <->
  worldToMap costmap 1 0 = None.
Proof.
  split.
  - intros H. exact (H 1%nat interior_smoother_3).
  - intros H i Hi. assert (i = 1%nat) as -> by (unfold interior in Hi; vm_compute in Hi; lia).
    exact H.
Qed.

Lemma Evaluate_off_map_ignores_field_witness :
  worldToMap all_but_one 0 0 = Some (0%Z, 0%Z) /\
  worldToMap all_but_one 3 0 = Some (0%Z, 0%Z) /\
  off_the_map (smoother 3) (_costmap (smoother 3)) [0; 0; 1; 0; 3; 0] /\
  off_the_map (smoother 3) all_but_one [0; 0; 1; 0; 3; 0] /\
  Evaluate (with_costmap (smoother 3) all_but_one) (junk_with 0) 0 0
    [0; 0; 1; 0; 3; 0] (Some (replicate 6 0)) =
  Evaluate (smoother 3) (junk_with 0) 0 0 [0; 0; 1; 0; 3; 0] (Some (replicate 6 0)).
Proof.
  split; [reflexivity|]. split; [reflexivity|].
  split; [by apply off_the_map_smoother_3|]. split; [by apply off_the_map_smoother_3|].
  apply (Evaluate_off_map_ignores_field (smoother 3) all_but_one (junk_with 0) 0 0
           [0; 0; 1; 0; 3; 0] (Some (replicate 6 0))); by apply off_the_map_smoother_3.
Defined.

Lemma field_jacobians_share_direction_witness :
  (253 <? INSCRIBED)%D = false /\
  ((253 =? FREE) || (253 =? UNKNOWN))%D = false /\
  (let self := UnconstrainedSmootherCostFunction_ctor 3 (grid5 (spike 3 2)) in
   let d := getCostmapGradient self 2 2 CostComputations_init in
   let c1 := (#(-2) * 1 * (253 - MAX_NON_OBSTACLE))%D in
   let c2 := (#(-2) * 0.2 * (253 - MAX_NON_OBSTACLE))%D in
   let first := addCollisionJacobian self 1 2 2 253 CostComputations_init 0 0 in
   addCostJacobian self 0.2 2 2 253 first.1 first.2.1 first.2.2 =
     (d, ((0 + c1 * gradx d + c2 * gradx d)%D, (0 + c1 * grady d + c2 * grady d)%D))).
Proof.
  split; [reflexivity|]. split; [reflexivity|].
  apply (field_jacobians_share_direction
           (UnconstrainedSmootherCostFunction_ctor 3 (grid5 (spike 3 2)))
           1 0.2 2 2 253 CostComputations_init 0 0); reflexivity.
Defined.

Lemma interior_smoother_4 : interior (smoother 4) 1 /\ interior (smoother 4) 2.
Proof. unfold interior. vm_compute. lia. Qed.

Lemma gradient_slots_carry_over_witness :
  let path := [0; 0; 1; 0; 3; 0; 6; 0] in
  let s := sweep (smoother 4) path (Locals_init (junk_with 0) 0 0 (Some (replicate 8 0))) 2 in
  interior (smoother 4) 1 /\
  interior (smoother 4) 2 /\
  length (replicate 8 0) = NumParameters (smoother 4) /\
  jacobians_on (smoother 4) path s 2 (-800000) 0 = (-1600000, 0) /\
  jacobians_on (smoother 4) path s 2 0 0 = (-800000, 0) /\
  exists o (vx vy : float),
    out_gradient (Evaluate (smoother 4) (junk_with 0) 0 0 path (Some (replicate 8 0))) =
      Some o /\
    o !! (2 * 1)%nat = Some vx /\
    o !! (2 * 1 + 1)%nat = Some vy /\
    o !! (2 * 2)%nat = Some (jacobians_on (smoother 4) path s 2 vx vy).1 /\
    o !! (2 * 2 + 1)%nat = Some (jacobians_on (smoother 4) path s 2 vx vy).2.
Proof.
  intros path s.
  split; [exact (proj1 interior_smoother_4)|]. split; [exact (proj2 interior_smoother_4)|].
  split; [reflexivity|]. split; [reflexivity|]. split; [reflexivity|].
  apply (gradient_slots_carry_over (smoother 4) (junk_with 0) 0 0 path (replicate 8 0) 1);
    [exact (proj1 interior_smoother_4) | exact (proj2 interior_smoother_4) | reflexivity].
Defined.

(** A 5 x 5 cost field that is 0 except for the small value 0.00001 at the
    cell (3, 2). *)
Definition faint (x y : Z) : float :=
  if ((x =? 3) && (y =? 2))%Z then 0.00001 else 0.

Lemma getCostmapGradient_inside_witness :
  let self := UnconstrainedSmootherCostFunction_ctor 3 (grid5 faint) in
  let cm := _costmap self in
  (2 <= 2)%Z /\ (2 + 2 < sizeX cm)%Z /\ (sizeX cm <= 2 ^ 32)%Z /\
  (2 <= 2)%Z /\ (2 + 2 < sizeY cm)%Z /\ (sizeY cm <= 2 ^ 32)%Z /\
  getCostmapGradient self 2 2 CostComputations_init =
    normalised_or_raw
      (five_point (#0)%D (getCost cm 2 (2 - 1)) (getCost cm 2 (2 + 1)) (getCost cm 2 (2 + 2)))
      (five_point (getCost cm 2 (2 - 2)) (getCost cm (2 - 1) 2)
                  (getCost cm (2 + 1) 2) (getCost cm (2 + 2) 2))
      CostComputations_init /\
  (0 <? grady (getCostmapGradient self 2 2 CostComputations_init)) = true /\
  (grady (getCostmapGradient self 2 2 CostComputations_init) <? EPSILON) = true.
Proof.
  intros self cm.
  do 6 (split; [by vm_compute|]).
  split; [|split; reflexivity].
  apply (getCostmapGradient_inside self 2 2 CostComputations_init); by vm_compute.
Defined.

Lemma degenerate_segments_keep_estimate_witness :
  let res := addMaxCurvatureResidual (smoother 3) 2 (Vec 1e200 0) (Vec 2e200 0) (Vec 0 0)
               (junk_with 12.5) 7 in
  disinf (norm (segment_in (Vec 1e200 0) (Vec 0 0))) = true /\
  degenerate (Vec 1e200 0) (Vec 2e200 0) (Vec 0 0) = true /\
  res.2 = 7 /\
  valid res.1 = false /\
  delta_phi_i res.1 = delta_phi_i (junk_with 12.5) /\
  turning_rad res.1 = turning_rad (junk_with 12.5) /\
  ki_minus_kmax res.1 = ki_minus_kmax (junk_with 12.5).
Proof.
  intros res. split; [reflexivity|]. split; [reflexivity|].
  apply (degenerate_segments_keep_estimate (smoother 3) 2 (Vec 1e200 0) (Vec 2e200 0)
           (Vec 0 0) (junk_with 12.5) 7).
  reflexivity.
Defined.

Lemma curvature_jacobian_silenced_witness :
  let self := smoother 4 in
  let path := [0; 0; 0.125; 0; 0.25; 0; 0.25; 0.125] in
  interior self 1 /\ (1 <= 2)%nat /\
  active self path 1 = false /\
  active self path 2 = true /\
  addMaxCurvatureJacobian (_Wcurve self) (point path 2) (point path 3) (point path 1)
    (curvature_params
       (sweep self path (Locals_init (junk_with 0) 0 0 (Some (replicate 8 0))) 3)) 5 6 =
  (5, 6).
Proof.
  intros self path.
  split; [exact (proj1 interior_smoother_4)|]. split; [lia|].
  split; [reflexivity|]. split; [reflexivity|].
  apply (curvature_jacobian_silenced self (junk_with 0) 0 0 path (Some (replicate 8 0))
           2 1 (_Wcurve self) (point path 2) (point path 3) (point path 1) 5 6);
    [exact (proj1 interior_smoother_4) | lia | reflexivity].
Defined.

Lemma agree_below_6 (k : nat) :
  (k < NumParameters (smoother 3))%nat ->
  rd [0; 0; 1; 0; 3; 0] k = rd [0; 0; 1; 0; 3; 0; 99; 99] k.
Proof.
  intros Hk. do 6 (destruct k as [|k]; [reflexivity|]).
  exfalso. unfold NumParameters in Hk. cbn in Hk. lia.
Qed.

Lemma Evaluate_reads_in_range_witness :
  (forall k : nat, (k < NumParameters (smoother 3))%nat ->
     rd [0; 0; 1; 0; 3; 0] k = rd [0; 0; 1; 0; 3; 0; 99; 99] k) /\
  rd [0; 0; 1; 0; 3; 0] 6 = 0 /\
  rd [0; 0; 1; 0; 3; 0; 99; 99] 6 = 99 /\
  Evaluate (smoother 3) (junk_with 0) 0 0 [0; 0; 1; 0; 3; 0] (Some (replicate 6 0)) =
  Evaluate (smoother 3) (junk_with 0) 0 0 [0; 0; 1; 0; 3; 0; 99; 99] (Some (replicate 6 0)).
Proof.
  split; [exact agree_below_6|]. split; [reflexivity|]. split; [reflexivity|].
  apply (Evaluate_reads_in_range (smoother 3) (junk_with 0) 0 0
           [0; 0; 1; 0; 3; 0] [0; 0; 1; 0; 3; 0; 99; 99] (Some (replicate 6 0))).
  exact agree_below_6.
Defined.

End MoreRuns.
